(** * Missionaries and Cannibals: puzzle model and game controller

    A shallow embedding of [model.py] and [controller.py].

    - [Py] holds the fragment of the Python 3 runtime the code relies on:
      exceptions as an error monad, ordering comparisons on the two kinds of
      values that [GameState.is_valid] compares (integers and bound methods),
      [list.remove] and [for] loops over a list.
    - [GameState] and [build_state_graph] follow [model.py].
    - [Character], [Boat] and [GameController] follow the logic fields of the
      classes of the same name; sprite and easing fields (images, pixel
      positions of characters, angles, wobble offsets) are left out, no
      method of the puzzle logic reads them.
    - [handle_event] and [run_frame] follow the event dispatch and one pass
      of the main loop of [controller.py], with the two hit tests as
      parameters. *)

From Stdlib Require Import ZArith Floats Lia.
From stdpp Require Import base numbers list strings.

Open Scope Z_scope.

(** ** Python runtime fragment *)

Module Py.

Inductive exn := TypeError | ValueError.

Inductive result (A : Type) : Type :=
| Ok (a : A)
| Raise (e : exn).
Arguments Ok {A} a.
Arguments Raise {A} e.

#[export] Instance result_ret : MRet result := @Ok.
#[export] Instance result_bind : MBind result :=
  fun A B f m => match m with Ok a => f a | Raise e => Raise e end.
#[export] Instance result_fmap : FMap result :=
  fun A B f m => match m with Ok a => Ok (f a) | Raise e => Raise e end.

(** The values an attribute access can produce in [GameState.is_valid]:
    an [int], or a bound method (the function together with its receiver),
    which is what [self.missionaries_right] without call parentheses is. *)
Inductive value (O : Type) : Type :=
| VInt (n : Z)
| VMethod (f : O -> Z) (self : O).
Arguments VInt {O} n.
Arguments VMethod {O} f self.

(** [a > b].  Python 3 orders two ints; a method object defines no ordering,
    so with a method on either side both reflected attempts answer
    NotImplemented and the interpreter raises TypeError. *)
Definition gt {O} (a b : value O) : result bool :=
  match a, b with
  | VInt x, VInt y => Ok (bool_decide (x > y))
  | _, _ => Raise TypeError
  end.

(** [a and b] on truth values: [b] is evaluated only when [a] is true. *)
Definition and_then (a b : result bool) : result bool :=
  x ← a; if x : bool then b else Ok false.

(** [for x in xs: body], threading the loop state and stopping at the first
    exception. *)
Fixpoint for_each {A S} (xs : list A) (body : A -> S -> result S) (s : S)
  : result S :=
  match xs with
  | [] => Ok s
  | x :: xs' => s' ← body x s; for_each xs' body s'
  end.

(** [l.remove(x)]: drops the first element equal to [x], ValueError when
    there is none. *)
Fixpoint remove {A} `{EqDecision A} (x : A) (l : list A) : result (list A) :=
  match l with
  | [] => Raise ValueError
  | y :: l' => if decide (y = x) then Ok l' else l'' ← remove x l'; Ok (y :: l'')
  end.

(** [sum(1 for c in l if p(c))]. *)
Fixpoint count_if {A} (p : A -> bool) (l : list A) : Z :=
  match l with
  | [] => 0
  | c :: l' => (if p c then 1 else 0) + count_if p l'
  end.

End Py.
Import Py.

(** ** constants.py *)

Inductive BoatPosition := LEFT | RIGHT.
Inductive GameScreen := WELCOME | PLAYING | EATING | WON | LOST.

#[export] Instance BoatPosition_eq_dec : EqDecision BoatPosition.
Proof. solve_decision. Defined.
#[export] Instance GameScreen_eq_dec : EqDecision GameScreen.
Proof. solve_decision. Defined.

Definition BOAT_LEFT_X : Z := 320.
Definition BOAT_RIGHT_X : Z := 680.
Definition BOAT_SPEED : Z := 3.
Definition EATING_DURATION : float := 2.0%float.

(** ** model.py: GameState *)

Module GameState.

Record t := mk {
  missionaries_left : Z;
  cannibals_left : Z;
  boat : BoatPosition
}.

#[global] Instance eq_dec : EqDecision t.
Proof. solve_decision. Defined.

Definition missionaries_right (self : t) : Z := 3 - missionaries_left self.
Definition cannibals_right (self : t) : Z := 3 - cannibals_left self.

(** [is_valid], line by line.  [m_right] and [c_right] are bound to the
    methods themselves, not to their results. *)
Definition is_valid (self : t) : result bool :=
  if negb (bool_decide (0 <= missionaries_left self)
           && bool_decide (missionaries_left self <= 3)) then Ok false
  else if negb (bool_decide (0 <= cannibals_left self)
                && bool_decide (cannibals_left self <= 3)) then Ok false
  else
    let m_left : value t := VInt (missionaries_left self) in
    let c_left : value t := VInt (cannibals_left self) in
    eaten_left ← and_then (gt m_left (VInt 0)) (gt c_left m_left);
    if eaten_left : bool then Ok false
    else
      let m_right := VMethod missionaries_right self in
      let c_right := VMethod cannibals_right self in
      eaten_right ← and_then (gt m_right (VInt 0)) (gt c_right m_right);
      if eaten_right : bool then Ok false else Ok true.

Definition is_goal (self : t) : bool :=
  bool_decide (missionaries_left self = 0)
  && bool_decide (cannibals_left self = 0)
  && bool_decide (boat self = RIGHT).

(** The safety invariant in the words of the specification: on each bank
    with at least one missionary the cannibals do not outnumber them. *)
Definition spec_bank_unsafe (m c : Z) : Prop := m > 0 /\ c > m.

Definition spec_unsafe (self : t) : Prop :=
  spec_bank_unsafe (missionaries_left self) (cannibals_left self)
  \/ spec_bank_unsafe (missionaries_right self) (cannibals_right self).

Definition spec_in_range (self : t) : Prop :=
  0 <= missionaries_left self <= 3 /\ 0 <= cannibals_left self <= 3.

(** The same check as a boolean function, both banks computed by calling
    the accessors. *)
Definition spec_safe_b (self : t) : bool :=
  bool_decide (0 <= missionaries_left self <= 3)
  && bool_decide (0 <= cannibals_left self <= 3)
  && negb (bool_decide (missionaries_left self > 0)
           && bool_decide (cannibals_left self > missionaries_left self))
  && negb (bool_decide (missionaries_right self > 0)
           && bool_decide (cannibals_right self > missionaries_right self)).

End GameState.

(** ** model.py: build_state_graph *)

Definition Move : Type := Z * Z.

(** The dictionary [graph].  [GameState] defines neither [__eq__] nor
    [__hash__], so every key is a distinct object and [graph[state] = ...]
    always adds an entry; the entries are kept in insertion order.  The list
    holds the items of the dictionary, a key being given by its three
    fields; the dictionary itself finds a key by object identity, so that
    no [GameState] built elsewhere, an edge target included, is one of its
    keys. *)
Definition StateGraph : Type :=
  list (GameState.t * list (Move * GameState.t)).

Definition possible_moves : list Move := [(1, 0); (2, 0); (0, 1); (0, 2); (1, 1)].

(** [range(4)] and iteration over the enumeration [BoatPosition]. *)
Definition range4 : list Z := [0; 1; 2; 3].
Definition boat_positions : list BoatPosition := [LEFT; RIGHT].

Section BuildStateGraph.

(** The loop nest of [build_state_graph] with the two calls of
    [.is_valid()] routed through [valid], so that the loops can be studied
    apart from the check they call. *)
Variable valid : GameState.t -> result bool.

(** One pass of the inner loop over [possible_moves]. *)
Definition try_move (m_left c_left : Z) (boat : BoatPosition) (mv : Move)
    (transitions : list (Move * GameState.t))
  : result (list (Move * GameState.t)) :=
  let '(m_move, c_move) := mv in
  let commit (new_m new_c : Z) (new_boat : BoatPosition) :=
    let new_state := GameState.mk new_m new_c new_boat in
    ok ← valid new_state;
    if ok : bool then Ok (transitions ++ [((m_move, c_move), new_state)])
    else Ok transitions in
  match boat with
  | LEFT =>
      let new_m := m_left - m_move in
      let new_c := c_left - c_move in
      let new_boat := RIGHT in
      if bool_decide (m_move > m_left) || bool_decide (c_move > c_left)
      then Ok transitions
      else commit new_m new_c new_boat
  | RIGHT =>
      let new_m := m_left + m_move in
      let new_c := c_left + c_move in
      let new_boat := LEFT in
      let m_right := 3 - m_left in
      let c_right := 3 - c_left in
      if bool_decide (m_move > m_right) || bool_decide (c_move > c_right)
      then Ok transitions
      else commit new_m new_c new_boat
  end.

(** The body of the three outer loops. *)
Definition visit (m_left c_left : Z) (boat : BoatPosition) (graph : StateGraph)
  : result StateGraph :=
  let state := GameState.mk m_left c_left boat in
  ok ← valid state;
  if negb ok then Ok graph
  else
    transitions ← for_each possible_moves (try_move m_left c_left boat) [];
    Ok (graph ++ [(state, transitions)]).

Definition build_state_graph_with : result StateGraph :=
  for_each range4 (fun m_left =>
    for_each range4 (fun c_left =>
      for_each boat_positions (fun boat => visit m_left c_left boat))) [].

End BuildStateGraph.

Definition build_state_graph : result StateGraph :=
  build_state_graph_with GameState.is_valid.

(** The graph the loops produce when the check is the two-sided one of the
    specification. *)
Definition spec_state_graph : result StateGraph :=
  build_state_graph_with (fun s => Ok (GameState.spec_safe_b s)).

(** The edge query of the specification, read by value off a built graph:
    the transitions recorded for the first key with the fields of [config],
    the empty sequence when there is none.  The source has no such function:
    it never reads the graph, and its dictionary finds keys by identity. *)
Definition spec_edgesFrom (g : StateGraph) (config : GameState.t)
  : list (Move * GameState.t) :=
  match list_find (fun e => e.1 = config) g with
  | Some (_, (_, edges)) => edges
  | None => []
  end.

(** The edges the specification asks for at a source configuration: each
    candidate move, in the fixed order, that the bank holding the boat can
    supply and whose result is safe. *)
Definition spec_apply (mv : Move) (s : GameState.t) : GameState.t :=
  match GameState.boat s with
  | LEFT => GameState.mk (GameState.missionaries_left s - mv.1)
                         (GameState.cannibals_left s - mv.2) RIGHT
  | RIGHT => GameState.mk (GameState.missionaries_left s + mv.1)
                          (GameState.cannibals_left s + mv.2) LEFT
  end.

Definition spec_available (mv : Move) (s : GameState.t) : bool :=
  match GameState.boat s with
  | LEFT => bool_decide (mv.1 <= GameState.missionaries_left s)
            && bool_decide (mv.2 <= GameState.cannibals_left s)
  | RIGHT => bool_decide (mv.1 <= GameState.missionaries_right s)
             && bool_decide (mv.2 <= GameState.cannibals_right s)
  end.

Definition spec_edges (s : GameState.t) : list (Move * GameState.t) :=
  (fun mv => (mv, spec_apply mv s))
    <$> filter (fun mv => spec_available mv s = true
                          /\ GameState.spec_safe_b (spec_apply mv s) = true)
               possible_moves.

Definition all_configurations : list GameState.t :=
  m_left ← range4; c_left ← range4; boat ← boat_positions;
  [GameState.mk m_left c_left boat].

(** The edges of a source configuration relative to a check [v] that
    answers for every configuration: the candidate moves, in their order,
    that the bank holding the boat can supply and whose result [v] accepts. *)
Definition edges_with (v : GameState.t -> bool) (s : GameState.t)
  : list (Move * GameState.t) :=
  (fun mv => (mv, spec_apply mv s))
    <$> filter (fun mv => spec_available mv s = true
                          /\ v (spec_apply mv s) = true)
               possible_moves.

(** ** model.py: Character and Boat *)

(** A reference to one of the character objects a controller owns:
    [self.missionaries[i]] or [self.cannibals[i]].  The boat's passenger list
    and [selected_characters] hold such references, so a character changed
    through one of them is changed for all. *)
Inductive CharRef := MRef (i : nat) | CRef (i : nat).

#[export] Instance CharRef_eq_dec : EqDecision CharRef.
Proof. solve_decision. Defined.

Module Character.

Record t := mk {
  char_type : string;
  index : Z;
  side : string;
  selected : bool;
  in_boat : bool;
  being_eaten : bool
}.

(** [Character(char_type, index, side, image)]. *)
Definition init (char_type : string) (index : Z) (side : string) : t :=
  mk char_type index side false false false.

Definition set_side (s : string) (c : t) : t :=
  mk (char_type c) (index c) s (selected c) (in_boat c) (being_eaten c).

(** [selected] and [in_boat] are always assigned together. *)
Definition set_boarded (b : bool) (c : t) : t :=
  mk (char_type c) (index c) (side c) b b (being_eaten c).

Definition set_being_eaten (b : bool) (c : t) : t :=
  mk (char_type c) (index c) (side c) (selected c) (in_boat c) b.

End Character.

Module Boat.

(** [x] and [target_x] are floats in the source.  In a run they only ever
    hold 320, 680 and the whole numbers a multiple of [BOAT_SPEED] away from
    them in between, on which float and integer arithmetic agree; the
    statements about the motion of the boat are made for such positions
    ([on_river] below). *)
Record t := mk {
  x : Z;
  target_x : Z;
  is_moving : bool;
  passengers : list CharRef
}.

Definition init : t := mk BOAT_LEFT_X BOAT_LEFT_X false [].

Definition move_to (position : BoatPosition) (self : t) : t :=
  mk (x self)
     (if decide (position = LEFT) then BOAT_LEFT_X else BOAT_RIGHT_X)
     true
     (passengers self).

(** [update]: the horizontal motion; the wave offsets and the passengers'
    pixel targets are presentation only. *)
Definition update (self : t) : t :=
  let dx := target_x self - x self in
  if bool_decide (Z.abs dx > 2)
  then mk (x self + (if bool_decide (0 <= dx) then BOAT_SPEED else - BOAT_SPEED))
          (target_x self) true (passengers self)
  else mk (target_x self) (target_x self) false (passengers self).

Definition set_passengers (p : list CharRef) (self : t) : t :=
  mk (x self) (target_x self) (is_moving self) p.

End Boat.

(** ** controller.py: GameController *)

Module GameController.

Record t := mk {
  state_graph : StateGraph;
  state : GameState.t;
  move_count : Z;
  current_screen : GameScreen;
  eating_timer : float;
  missionaries : list Character.t;
  cannibals : list Character.t;
  boat : Boat.t;
  selected_characters : list CharRef
}.

(** Field assignments. *)
Definition set_state (s : GameState.t) (self : t) : t :=
  mk (state_graph self) s (move_count self) (current_screen self)
     (eating_timer self) (missionaries self) (cannibals self) (boat self)
     (selected_characters self).

Definition set_move_count (n : Z) (self : t) : t :=
  mk (state_graph self) (state self) n (current_screen self)
     (eating_timer self) (missionaries self) (cannibals self) (boat self)
     (selected_characters self).

Definition set_current_screen (g : GameScreen) (self : t) : t :=
  mk (state_graph self) (state self) (move_count self) g
     (eating_timer self) (missionaries self) (cannibals self) (boat self)
     (selected_characters self).

Definition set_eating_timer (f : float) (self : t) : t :=
  mk (state_graph self) (state self) (move_count self) (current_screen self)
     f (missionaries self) (cannibals self) (boat self)
     (selected_characters self).

Definition set_missionaries (l : list Character.t) (self : t) : t :=
  mk (state_graph self) (state self) (move_count self) (current_screen self)
     (eating_timer self) l (cannibals self) (boat self)
     (selected_characters self).

Definition set_cannibals (l : list Character.t) (self : t) : t :=
  mk (state_graph self) (state self) (move_count self) (current_screen self)
     (eating_timer self) (missionaries self) l (boat self)
     (selected_characters self).

Definition set_boat (b : Boat.t) (self : t) : t :=
  mk (state_graph self) (state self) (move_count self) (current_screen self)
     (eating_timer self) (missionaries self) (cannibals self) b
     (selected_characters self).

Definition set_selected_characters (l : list CharRef) (self : t) : t :=
  mk (state_graph self) (state self) (move_count self) (current_screen self)
     (eating_timer self) (missionaries self) (cannibals self) (boat self) l.

(** Reading and updating the object behind a reference. *)
Definition deref (r : CharRef) (self : t) : option Character.t :=
  match r with
  | MRef i => missionaries self !! i
  | CRef i => cannibals self !! i
  end.

Definition modify (f : Character.t -> Character.t) (r : CharRef) (self : t) : t :=
  match r with
  | MRef i => set_missionaries (alter f i (missionaries self)) self
  | CRef i => set_cannibals (alter f i (cannibals self)) self
  end.

(** ['left' if self.state.boat == BoatPosition.LEFT else 'right']. *)
Definition side_of (b : BoatPosition) : string :=
  if decide (b = LEFT) then "left" else "right".

(** The objects [reset_game] creates, for a controller whose state graph
    is [g]. *)
Definition fresh (g : StateGraph) : t :=
  let '(ms, cs) :=
    foldl (fun '(ms, cs) i =>
             (ms ++ [Character.init "missionary" i "left"],
              cs ++ [Character.init "cannibal" i "left"]))
          ([], []) [0; 1; 2] in
  mk g (GameState.mk 3 3 LEFT) 0 PLAYING 0%float ms cs Boat.init [].

Definition reset_game (self : t) : t := fresh (state_graph self).

(** [__init__], without the window, fonts and images. *)
Definition init : result t :=
  g ← build_state_graph;
  Ok (set_eating_timer 0%float (set_current_screen WELCOME (fresh g))).

Definition get_all_characters (self : t) : list Character.t :=
  missionaries self ++ cannibals self.

Definition handle_character_click (char : CharRef) (self : t) : result t :=
  if Boat.is_moving (boat self) then Ok self
  else
    let boat_side := side_of (GameState.boat (state self)) in
    match deref char self with
    | None => Ok self
    | Some ch =>
        if Character.in_boat ch then
          let self1 :=
            modify (fun c => Character.set_side boat_side
                               (Character.set_boarded false c)) char self in
          p ← remove char (Boat.passengers (boat self1));
          let self2 := set_boat (Boat.set_passengers p (boat self1)) self1 in
          s ← remove char (selected_characters self2);
          Ok (set_selected_characters s self2)
        else if bool_decide (Character.side ch = boat_side)
                && bool_decide (length (Boat.passengers (boat self)) < 2)%nat
        then
          let self1 := modify (Character.set_boarded true) char self in
          let self2 :=
            set_boat (Boat.set_passengers
                        (Boat.passengers (boat self1) ++ [char]) (boat self1))
                     self1 in
          Ok (set_selected_characters (selected_characters self2 ++ [char]) self2)
        else Ok self
    end.

(** [c.char_type == ty] for the object behind [r]. *)
Definition has_type (ty : string) (self : t) (r : CharRef) : bool :=
  match deref r self with
  | Some ch => bool_decide (Character.char_type ch = ty)
  | None => false
  end.

Definition try_cross_river (self : t) : t :=
  if Boat.is_moving (boat self)
     || bool_decide (length (Boat.passengers (boat self)) = 0%nat)
  then self
  else
    let m_count := count_if (has_type "missionary" self) (Boat.passengers (boat self)) in
    let c_count := count_if (has_type "cannibal" self) (Boat.passengers (boat self)) in
    let '(new_m, new_c, new_boat) :=
      if decide (GameState.boat (state self) = LEFT)
      then (GameState.missionaries_left (state self) - m_count,
            GameState.cannibals_left (state self) - c_count,
            RIGHT)
      else (GameState.missionaries_left (state self) + m_count,
            GameState.cannibals_left (state self) + c_count,
            LEFT) in
    let self1 := set_state (GameState.mk new_m new_c new_boat) self in
    let self2 := set_move_count (move_count self1 + 1) self1 in
    let new_side := side_of (GameState.boat (state self2)) in
    let self3 := set_boat (Boat.move_to (GameState.boat (state self2)) (boat self2)) self2 in
    foldl (fun s char => modify (Character.set_side new_side) char s)
          self3 (Boat.passengers (boat self3)).

(** The local [losing_side] of [start_eating_animation]; [None] is
    Python's [None]. *)
Definition losing_side (s : GameState.t) : option string :=
  let m_left := GameState.missionaries_left s in
  let c_left := GameState.cannibals_left s in
  let m_right := GameState.missionaries_right s in
  let c_right := GameState.cannibals_right s in
  let losing_side := None in
  let losing_side :=
    if bool_decide (m_left > 0) && bool_decide (c_left > m_left)
    then Some "left" else losing_side in
  let losing_side :=
    if bool_decide (m_right > 0) && bool_decide (c_right > m_right)
    then Some "right" else losing_side in
  losing_side.

Definition start_eating_animation (self : t) : t :=
  let self1 := set_current_screen EATING self in
  let self2 := set_eating_timer 0%float self1 in
  let target := losing_side (state self2) in
  set_missionaries
    ((fun m => if bool_decide (Some (Character.side m) = target)
               then Character.set_being_eaten true m else m)
       <$> missionaries self2)
    self2.

(** The first half of [finish_crossing]: everybody leaves the boat. *)
Definition disembark (self : t) : t :=
  let self1 :=
    foldl (fun s char => modify (Character.set_boarded false) char s)
          self (Boat.passengers (boat self)) in
  let self2 := set_boat (Boat.set_passengers [] (boat self1)) self1 in
  set_selected_characters [] self2.

Definition finish_crossing (self : t) : result t :=
  let self1 := disembark self in
  if GameState.is_goal (state self1) then Ok (set_current_screen WON self1)
  else
    ok ← GameState.is_valid (state self1);
    if negb ok then Ok (start_eating_animation self1) else Ok self1.

(** [update(dt)]; the per-character [update(dt)] calls only ease sprites. *)
Definition update (dt : float) (self : t) : result t :=
  if decide (current_screen self = EATING) then
    let self1 := set_eating_timer (eating_timer self + dt)%float self in
    if (EATING_DURATION + 0.5 <=? eating_timer self1)%float
    then Ok (set_current_screen LOST self1)
    else Ok self1
  else if decide (current_screen self <> PLAYING) then Ok self
  else
    let was_moving := Boat.is_moving (boat self) in
    let self1 := set_boat (Boat.update (boat self)) self in
    if was_moving && negb (Boat.is_moving (boat self1))
    then finish_crossing self1
    else Ok self1.

(** *** Drivers: a sequence of clicks, a number of frames *)

Definition run_clicks (chars : list CharRef) (self : t) : result t :=
  for_each chars handle_character_click self.

Fixpoint run_updates (frames : nat) (dt : float) (self : t) : result t :=
  match frames with
  | O => Ok self
  | S n => self' ← update dt self; run_updates n dt self'
  end.

(** A new game in which the listed characters have been clicked, in order
    (the new game itself should a click raise). *)
Definition boarded (chars : list CharRef) : t :=
  match run_clicks chars (fresh []) with
  | Ok self => self
  | Raise _ => fresh []
  end.

(** What the specification's session queries read. *)
Definition observe (self : t) : GameState.t * Z * GameScreen :=
  (state self, move_count self, current_screen self).

(** Two controllers that differ at most in their character objects. *)
Definition frame (self self' : t) : Prop :=
  state_graph self' = state_graph self
  /\ state self' = state self
  /\ move_count self' = move_count self
  /\ current_screen self' = current_screen self
  /\ eating_timer self' = eating_timer self
  /\ boat self' = boat self
  /\ selected_characters self' = selected_characters self
  /\ length (missionaries self') = length (missionaries self)
  /\ length (cannibals self') = length (cannibals self).

(** The tally [try_cross_river] takes of the boat. *)
Definition m_count (self : t) : Z :=
  count_if (has_type "missionary" self) (Boat.passengers (boat self)).
Definition c_count (self : t) : Z :=
  count_if (has_type "cannibal" self) (Boat.passengers (boat self)).

(** *** Representation invariant *)

Definition count_side (s : string) (l : list Character.t) : Z :=
  count_if (fun ch => bool_decide (Character.side ch = s)) l.

Definition type_of_ref (r : CharRef) : string :=
  match r with MRef _ => "missionary" | CRef _ => "cannibal" end.

(** Counting one character at a time: 1 when the object is there and on
    side [s]; 1 when the reference is in the list [p]. *)
Definition on_side (s : string) (o : option Character.t) : Z :=
  match o with
  | Some ch => if bool_decide (Character.side ch = s) then 1 else 0
  | None => 0
  end.

Definition aboard (r : CharRef) (p : list CharRef) : Z :=
  if bool_decide (r ∈ p) then 1 else 0.

Record Inv (self : t) : Prop := {
  inv_m_len : length (missionaries self) = 3%nat;
  inv_c_len : length (cannibals self) = 3%nat;
  inv_type : forall r ch,
    deref r self = Some ch -> Character.char_type ch = type_of_ref r;
  inv_m_count :
    GameState.missionaries_left (state self)
    = count_side "left" (missionaries self);
  inv_c_count :
    GameState.cannibals_left (state self)
    = count_side "left" (cannibals self);
  inv_nodup : NoDup (Boat.passengers (boat self));
  inv_pass : forall r,
    r ∈ Boat.passengers (boat self) ->
    exists ch, deref r self = Some ch
               /\ Character.in_boat ch = true
               /\ Character.side ch = side_of (GameState.boat (state self));
  inv_in_boat : forall r ch,
    deref r self = Some ch -> Character.in_boat ch = true ->
    r ∈ Boat.passengers (boat self);
  inv_selected : selected_characters self = Boat.passengers (boat self);
  inv_pass_len : (length (Boat.passengers (boat self)) <= 2)%nat
}.

(** *** The states the operations can reach *)

Inductive step : t -> t -> Prop :=
| step_reset self :
    step self (reset_game self)
| step_click self char self' :
    handle_character_click char self = Ok self' -> step self self'
| step_cross self :
    step self (try_cross_river self)
| step_update self dt self' :
    update dt self = Ok self' -> step self self'.

Inductive reachable : t -> Prop :=
| reachable_reset self : reachable (reset_game self)
| reachable_step self self' :
    reachable self -> step self self' -> reachable self'.

End GameController.

Module GC := GameController.

(** ** model.py: Character.update_position *)

Definition LEFT_BANK_X : Z := 120.
Definition RIGHT_BANK_X : Z := 880.
Definition CHARACTER_Y_TOP : Z := 180.
Definition CHARACTER_Y_BOTTOM : Z := 300.

(** [update_position], as a function from the character and its current
    [(target_x, target_y)] to the new pair: untouched while the character is
    in the boat, its place on its bank otherwise. *)
Definition update_position (self : Character.t) (target : Z * Z) : Z * Z :=
  if Character.in_boat self then target
  else
    let base_x :=
      if bool_decide (Character.side self = "left")
      then LEFT_BANK_X else RIGHT_BANK_X in
    let target_y :=
      if bool_decide (Character.char_type self = "missionary")
      then CHARACTER_Y_TOP else CHARACTER_Y_BOTTOM in
    let offset := (Character.index self - 1) * 70 in
    (base_x + offset, target_y).

(** ** controller.py: handle_event and one pass of the loop of run *)

(** The keys [handle_event] tells apart, and the events it looks at. *)
Inductive Key := K_ESCAPE | K_q | K_r | K_SPACE | K_other.

Inductive Event :=
| QUIT
| KEYDOWN (key : Key)
| MOUSEBUTTONDOWN (button : Z) (pos : Z * Z)
| OTHER_EVENT.

#[export] Instance Key_eq_dec : EqDecision Key.
Proof. solve_decision. Defined.

Section Events.

(** Hit tests.  [Boat.contains_point] and [Character.contains_point] read
    pixel positions that the animation computes with floating-point sines
    and square roots; here they are given. *)
Variable boat_contains_point : GC.t -> Z * Z -> bool.
Variable char_contains_point : GC.t -> CharRef -> Z * Z -> bool.

(** References to [get_all_characters()], in its order. *)
Definition all_characters (self : GC.t) : list CharRef :=
  (MRef <$> seq 0 (length (GC.missionaries self)))
  ++ (CRef <$> seq 0 (length (GC.cannibals self))).

(** The controller after the event and the value returned ([False] asks the
    loop to stop). *)
Definition handle_event (event : Event) (self : GC.t) : result (GC.t * bool) :=
  match event with
  | QUIT => Ok (self, false)
  | KEYDOWN key =>
      if bool_decide (key = K_ESCAPE \/ key = K_q) then Ok (self, false)
      else if decide (key = K_r) then Ok (GC.reset_game self, true)
      else if decide (GC.current_screen self = WELCOME) then
        if decide (key = K_SPACE) then Ok (GC.reset_game self, true)
        else Ok (self, true)
      else if decide (GC.current_screen self = PLAYING) then
        if decide (key = K_SPACE) then Ok (GC.try_cross_river self, true)
        else Ok (self, true)
      else Ok (self, true)
  | MOUSEBUTTONDOWN button pos =>
      if bool_decide (button = 1) then
        if decide (GC.current_screen self = WELCOME)
        then Ok (GC.reset_game self, true)
        else if decide (GC.current_screen self = PLAYING) then
          if boat_contains_point self pos
          then Ok (GC.try_cross_river self, true)
          else
            match List.find (fun char => char_contains_point self char pos)
                            (all_characters self) with
            | Some char =>
                self' ← GC.handle_character_click char self; Ok (self', true)
            | None => Ok (self, true)
            end
        else Ok (self, true)
      else Ok (self, true)
  | OTHER_EVENT => Ok (self, true)
  end.

(** One pass of the [while running] loop of [run], for the events
    [pygame.event.get()] returned and the frame time [dt]: every event is
    handled, then [update(dt)] runs; the flag is the new [running]. *)
Definition run_frame (events : list Event) (dt : float) (self : GC.t)
  : result (GC.t * bool) :=
  '(self1, running) ←
    for_each events
      (fun event '(s, running) =>
         '(s', continue) ← handle_event event s;
         Ok (s', if continue : bool then running else false))
      (self, true);
  self2 ← GC.update dt self1;
  Ok (self2, running).

End Events.

(** ** Further invariants of reachable controllers *)

Definition ref_index (r : CharRef) : nat :=
  match r with MRef i | CRef i => i end.

(** Every character stands on one of the two banks, is selected exactly
    when it is in the boat, and keeps the index it was created with. *)
Definition well_formed_characters (self : GC.t) : Prop :=
  forall r ch, GC.deref r self = Some ch ->
    (Character.side ch = "left" \/ Character.side ch = "right")
    /\ Character.selected ch = Character.in_boat ch
    /\ Character.index ch = Z.of_nat (ref_index r).

(** The shape of a session: the screen is not WON; at least four characters
    are on the left bank; a boat at rest belongs to the start configuration
    or to a configuration with the boat on the right; and while the screen is
    PLAYING the game is at its start with the boat at rest, or in its first
    crossing. *)
Definition before_first_arrival (self : GC.t) : Prop :=
  GC.current_screen self <> WON
  /\ GameState.missionaries_left (GC.state self)
     + GameState.cannibals_left (GC.state self) >= 4
  /\ (Boat.is_moving (GC.boat self) = false ->
      GC.state self = GameState.mk 3 3 LEFT
      \/ GameState.boat (GC.state self) = RIGHT)
  /\ (GC.current_screen self = PLAYING ->
      (Boat.is_moving (GC.boat self) = false ->
       GC.state self = GameState.mk 3 3 LEFT)
      /\ (GC.state self = GameState.mk 3 3 LEFT
          \/ GameState.boat (GC.state self) = RIGHT)).

(** ** The boat between its moorings *)

(** Position and target lie on whole pixels from [BOAT_LEFT_X] to
    [BOAT_RIGHT_X].  Differences, sums with [BOAT_SPEED] and comparisons of
    such floats are exact, so that [Boat.update] computes on them what the
    source computes. *)
Definition on_river (b : Boat.t) : Prop :=
  BOAT_LEFT_X <= Boat.x b <= BOAT_RIGHT_X
  /\ BOAT_LEFT_X <= Boat.target_x b <= BOAT_RIGHT_X.

(** * Properties *)

(** ** GameState.is_valid *)

(** The three outcomes of [is_valid]: out of range and a left bank with
    outnumbered missionaries answer [False]; everything else reaches the
    comparison of a method object with [0]. *)
Lemma is_valid_cases (s : GameState.t) :
  GameState.is_valid s =
    if bool_decide (GameState.spec_in_range s)
    then if bool_decide (GameState.spec_bank_unsafe
                           (GameState.missionaries_left s)
                           (GameState.cannibals_left s))
         then Ok false
         else Raise TypeError
    else Ok false.
Proof.
  destruct s as [m c b].
  unfold GameState.is_valid, GameState.spec_in_range,
    GameState.spec_bank_unsafe, and_then, gt; simpl.
  repeat case_bool_decide; simpl; try reflexivity; try lia.
Qed.

Lemma is_valid_never_true (s : GameState.t) : GameState.is_valid s <> Ok true.
Proof. rewrite is_valid_cases. repeat case_bool_decide; discriminate. Qed.

Lemma is_valid_false_iff (s : GameState.t) :
  GameState.is_valid s = Ok false <->
  ~ GameState.spec_in_range s
  \/ GameState.spec_bank_unsafe (GameState.missionaries_left s)
                                (GameState.cannibals_left s).
Proof.
  rewrite is_valid_cases.
  repeat case_bool_decide; split; intros ?; try discriminate; try reflexivity;
    tauto.
Qed.

Lemma is_valid_raises_iff (s : GameState.t) :
  GameState.is_valid s = Raise TypeError <->
  GameState.spec_in_range s
  /\ ~ GameState.spec_bank_unsafe (GameState.missionaries_left s)
                                  (GameState.cannibals_left s).
Proof.
  rewrite is_valid_cases.
  repeat case_bool_decide; split; intros ?; try discriminate; try reflexivity;
    tauto.
Qed.

(** The two-sided check of the specification decides its safety predicate. *)
Lemma spec_safe_b_true_iff (s : GameState.t) :
  GameState.spec_safe_b s = true <->
  GameState.spec_in_range s /\ ~ GameState.spec_unsafe s.
Proof.
  destruct s as [m c b].
  unfold GameState.spec_safe_b, GameState.spec_in_range, GameState.spec_unsafe,
    GameState.spec_bank_unsafe, GameState.missionaries_right,
    GameState.cannibals_right; simpl.
  repeat case_bool_decide; simpl; split; intros ?; try discriminate;
    try reflexivity; try lia.
Qed.

(** C1: on the in-range configuration with 2 missionaries and 1 cannibal on
    the left, the right bank holds 1 missionary and 2 cannibals, so the
    configuration is unsafe; [is_valid] does not answer [False] there but
    raises TypeError, as it does on the safe start configuration (3,3), where
    the specified answer is [True]. *)
Theorem is_valid_right_bank_raises :
  GameState.spec_in_range (GameState.mk 2 1 LEFT)
  /\ GameState.spec_bank_unsafe
       (GameState.missionaries_right (GameState.mk 2 1 LEFT))
       (GameState.cannibals_right (GameState.mk 2 1 LEFT))
  /\ GameState.is_valid (GameState.mk 2 1 LEFT) = Raise TypeError
  /\ ~ GameState.spec_unsafe (GameState.mk 3 3 LEFT)
  /\ GameState.is_valid (GameState.mk 3 3 LEFT) = Raise TypeError.
Proof.
  unfold GameState.spec_in_range, GameState.spec_unsafe,
    GameState.spec_bank_unsafe, GameState.missionaries_right,
    GameState.cannibals_right; simpl.
  repeat split; try reflexivity; lia.
Qed.

(** ** build_state_graph *)

Lemma spec_state_graph_value :
  spec_state_graph
  = Ok ((fun s => (s, spec_edges s))
          <$> filter (fun s => GameState.spec_safe_b s = true) all_configurations).
Proof. vm_compute. reflexivity. Qed.

(** C4: the first configuration visited, (0,0,LEFT), already makes
    [is_valid] raise, so [build_state_graph] records no edge at all; the same
    loops run with the two-sided check record, for every safe source and in
    the fixed move order, exactly the moves the origin bank can supply and
    whose result is safe. *)
Theorem build_state_graph_raises :
  build_state_graph = Raise TypeError
  /\ spec_state_graph
     = Ok ((fun s => (s, spec_edges s))
             <$> filter (fun s => GameState.spec_safe_b s = true)
                        all_configurations).
Proof. split; [reflexivity | apply spec_state_graph_value]. Qed.

(** [GameController()] stops at [build_state_graph()]: no controller, and
    with it no [state_graph], is ever obtained from the constructor. *)
Lemma controller_init_raises : GameController.init = Raise TypeError.
Proof. reflexivity. Qed.

(** ** Character objects behind references *)

Lemma frame_refl (c : GC.t) : GC.frame c c.
Proof. repeat split. Qed.

Lemma frame_trans (c1 c2 c3 : GC.t) :
  GC.frame c1 c2 -> GC.frame c2 c3 -> GC.frame c1 c3.
Proof. unfold GC.frame. intros; destruct_and!; repeat split; congruence. Qed.

Lemma modify_frame f r (c : GC.t) : GC.frame c (GC.modify f r c).
Proof.
  destruct r; unfold GC.frame; simpl; repeat split; try reflexivity;
    apply length_alter.
Qed.

Lemma foldl_modify_frame f (p : list CharRef) (c : GC.t) :
  GC.frame c (foldl (fun s r => GC.modify f r s) c p).
Proof.
  revert c. induction p as [|r p IH]; intros c; simpl.
  - apply frame_refl.
  - eapply frame_trans; [apply (modify_frame f r) | apply IH].
Qed.

Lemma deref_modify f r r' (c : GC.t) :
  GC.deref r' (GC.modify f r c)
  = if decide (r = r') then f <$> GC.deref r' c else GC.deref r' c.
Proof.
  destruct (decide (r = r')) as [<-|Hne].
  - destruct r as [i|i]; simpl; apply list_lookup_alter_eq.
  - destruct r as [i|i], r' as [j|j]; simpl; try reflexivity;
      apply list_lookup_alter_ne; congruence.
Qed.

(** A loop [for char in p: char.field = v] changes the characters listed in
    [p], once each, and no other. *)
Lemma deref_foldl_modify f (p : list CharRef) (c : GC.t) r :
  (forall ch, f (f ch) = f ch) ->
  GC.deref r (foldl (fun s r => GC.modify f r s) c p)
  = if decide (r ∈ p) then f <$> GC.deref r c else GC.deref r c.
Proof.
  intros Hf. revert c. induction p as [|a p IH]; intros c; cbn [foldl].
  - destruct (decide (r ∈ [])) as [Hin|_]; [|reflexivity].
    exfalso. by eapply not_elem_of_nil.
  - rewrite IH, deref_modify.
    destruct (decide (r ∈ p)) as [?|?], (decide (a = r)) as [?|?],
      (decide (r ∈ a :: p)) as [?|?];
      try reflexivity;
      try (exfalso;
           match goal with
           | H : _ ∉ _ :: _ |- _ => apply H, elem_of_cons; auto
           | H : _ ∈ _ :: _ |- _ =>
               apply elem_of_cons in H; destruct H; congruence
           end).
    destruct (GC.deref r c); simpl; [rewrite Hf|]; reflexivity.
Qed.

(** ** reset_game *)

(** C7: whatever the controller holds, [reset_game] leaves the start
    configuration (3,3,LEFT), an empty boat and selection, move counter 0 and
    the PLAYING screen, with the boat at rest and every character on the
    left bank, not boarded. *)
Theorem reset_game_initial (c : GC.t) :
  GC.state (GC.reset_game c) = GameState.mk 3 3 LEFT
  /\ Boat.passengers (GC.boat (GC.reset_game c)) = []
  /\ GC.selected_characters (GC.reset_game c) = []
  /\ GC.move_count (GC.reset_game c) = 0
  /\ GC.current_screen (GC.reset_game c) = PLAYING
  /\ Boat.is_moving (GC.boat (GC.reset_game c)) = false
  /\ forall r ch,
       GC.deref r (GC.reset_game c) = Some ch ->
       Character.in_boat ch = false /\ Character.side ch = "left".
Proof.
  repeat split; try reflexivity;
    destruct r as [[|[|[|i]]]|[|[|[|i]]]]; simpl in *; simplify_eq; reflexivity.
Qed.

(** ** try_cross_river *)

Lemma try_cross_river_idle (c : GC.t) :
  Boat.is_moving (GC.boat c) = true \/ Boat.passengers (GC.boat c) = [] ->
  GC.try_cross_river c = c.
Proof.
  intros [H|H]; unfold GC.try_cross_river; rewrite H; [reflexivity|].
  simpl. rewrite orb_true_r. reflexivity.
Qed.

Lemma try_cross_river_unfold (c : GC.t) :
  Boat.is_moving (GC.boat c) = false ->
  Boat.passengers (GC.boat c) <> [] ->
  GC.try_cross_river c
  = let s' := match GameState.boat (GC.state c) with
              | LEFT => GameState.mk
                          (GameState.missionaries_left (GC.state c) - GC.m_count c)
                          (GameState.cannibals_left (GC.state c) - GC.c_count c)
                          RIGHT
              | RIGHT => GameState.mk
                           (GameState.missionaries_left (GC.state c) + GC.m_count c)
                           (GameState.cannibals_left (GC.state c) + GC.c_count c)
                           LEFT
              end in
    foldl (fun s char =>
             GC.modify (Character.set_side (GC.side_of (GameState.boat s'))) char s)
          (GC.set_boat (Boat.move_to (GameState.boat s') (GC.boat c))
             (GC.set_move_count (GC.move_count c + 1) (GC.set_state s' c)))
          (Boat.passengers (GC.boat c)).
Proof.
  intros Hm Hp. unfold GC.try_cross_river, GC.m_count, GC.c_count.
  rewrite Hm.
  rewrite bool_decide_eq_false_2
    by (destruct (Boat.passengers (GC.boat c)); [congruence | discriminate]).
  destruct (GameState.boat (GC.state c)); reflexivity.
Qed.

Lemma try_cross_river_fields (c : GC.t) :
  Boat.is_moving (GC.boat c) = false ->
  Boat.passengers (GC.boat c) <> [] ->
  GC.state (GC.try_cross_river c)
  = match GameState.boat (GC.state c) with
    | LEFT => GameState.mk
                (GameState.missionaries_left (GC.state c) - GC.m_count c)
                (GameState.cannibals_left (GC.state c) - GC.c_count c)
                RIGHT
    | RIGHT => GameState.mk
                 (GameState.missionaries_left (GC.state c) + GC.m_count c)
                 (GameState.cannibals_left (GC.state c) + GC.c_count c)
                 LEFT
    end
  /\ GC.move_count (GC.try_cross_river c) = GC.move_count c + 1
  /\ GC.current_screen (GC.try_cross_river c) = GC.current_screen c
  /\ Boat.is_moving (GC.boat (GC.try_cross_river c)) = true
  /\ Boat.passengers (GC.boat (GC.try_cross_river c))
     = Boat.passengers (GC.boat c)
  /\ GC.selected_characters (GC.try_cross_river c) = GC.selected_characters c
  /\ length (GC.missionaries (GC.try_cross_river c)) = length (GC.missionaries c)
  /\ length (GC.cannibals (GC.try_cross_river c)) = length (GC.cannibals c).
Proof.
  intros Hm Hp. rewrite (try_cross_river_unfold c Hm Hp). cbv zeta.
  match goal with
  | |- context [foldl (fun s char => GC.modify ?f char s) ?c0 ?p] =>
      destruct (foldl_modify_frame f p c0)
        as (_ & Hs & Hn & Hscr & _ & Hb & Hsel & Hlm & Hlc)
  end.
  rewrite Hs, Hn, Hscr, Hb, Hsel, Hlm, Hlc. simpl. repeat split; reflexivity.
Qed.

Lemma deref_try_cross_river (c : GC.t) r :
  Boat.is_moving (GC.boat c) = false ->
  Boat.passengers (GC.boat c) <> [] ->
  GC.deref r (GC.try_cross_river c)
  = if decide (r ∈ Boat.passengers (GC.boat c))
    then Character.set_side
           (GC.side_of (GameState.boat (GC.state (GC.try_cross_river c))))
         <$> GC.deref r c
    else GC.deref r c.
Proof.
  intros Hm Hp.
  destruct (try_cross_river_fields c Hm Hp) as (Hst & _). rewrite Hst.
  rewrite (try_cross_river_unfold c Hm Hp). cbv zeta.
  rewrite deref_foldl_modify by reflexivity.
  destruct r; reflexivity.
Qed.

(** C2 (amended): [try_cross_river] has no legality gate.  With the boat at
    rest and at least one passenger it commits the tallied move, whatever it
    is: the left counts decrease (boat on the left) or increase (boat on the
    right) by the tally, the boat side flips, the move counter grows by one,
    the boat starts moving with the same passengers, and the screen is
    untouched. *)
Theorem try_cross_river_commits (c : GC.t) :
  Boat.is_moving (GC.boat c) = false ->
  Boat.passengers (GC.boat c) <> [] ->
  GC.state (GC.try_cross_river c)
  = match GameState.boat (GC.state c) with
    | LEFT => GameState.mk
                (GameState.missionaries_left (GC.state c) - GC.m_count c)
                (GameState.cannibals_left (GC.state c) - GC.c_count c)
                RIGHT
    | RIGHT => GameState.mk
                 (GameState.missionaries_left (GC.state c) + GC.m_count c)
                 (GameState.cannibals_left (GC.state c) + GC.c_count c)
                 LEFT
    end
  /\ GC.move_count (GC.try_cross_river c) = GC.move_count c + 1
  /\ GC.current_screen (GC.try_cross_river c) = GC.current_screen c
  /\ Boat.is_moving (GC.boat (GC.try_cross_river c)) = true
  /\ Boat.passengers (GC.boat (GC.try_cross_river c))
     = Boat.passengers (GC.boat c)
  /\ GC.selected_characters (GC.try_cross_river c) = GC.selected_characters c.
Proof.
  intros Hm Hp.
  destruct (try_cross_river_fields c Hm Hp) as (? & ? & ? & ? & ? & ? & _).
  auto 10.
Qed.

(** C6: after [try_cross_river], from any configuration and with any
    passengers, the two tests of [start_eating_animation] cannot both
    succeed: the left and the right bank are never unsafe together. *)
Theorem try_cross_river_at_most_one_unsafe_bank (c : GC.t) :
  ~ (GameState.spec_bank_unsafe
       (GameState.missionaries_left (GC.state (GC.try_cross_river c)))
       (GameState.cannibals_left (GC.state (GC.try_cross_river c)))
     /\ GameState.spec_bank_unsafe
          (GameState.missionaries_right (GC.state (GC.try_cross_river c)))
          (GameState.cannibals_right (GC.state (GC.try_cross_river c)))).
Proof.
  generalize (GC.state (GC.try_cross_river c)). intros [m k b].
  unfold GameState.spec_bank_unsafe, GameState.missionaries_right,
    GameState.cannibals_right; simpl. lia.
Qed.


(** C2 (as stated, refuted): in a new game with one missionary aboard the
    tally is (1,0); it is not among the edges of (3,3,LEFT) in the graph built
    with the two-sided check, and the source's own graph does not exist, yet
    [try_cross_river] commits the move: the configuration becomes
    (2,3,RIGHT) and the move counter 1. *)
Lemma try_cross_river_commits_unlisted_move :
  (exists g, spec_state_graph = Ok g
             /\ (1, 0) ∉ (fst <$> spec_edgesFrom g (GC.state (GC.boarded [MRef 0]))))
  /\ build_state_graph = Raise TypeError
  /\ GC.run_clicks [MRef 0] (GC.fresh []) = Ok (GC.boarded [MRef 0])
  /\ (GC.m_count (GC.boarded [MRef 0]), GC.c_count (GC.boarded [MRef 0])) = (1, 0)
  /\ GC.observe (GC.boarded [MRef 0]) = (GameState.mk 3 3 LEFT, 0, PLAYING)
  /\ GC.observe (GC.try_cross_river (GC.boarded [MRef 0]))
     = (GameState.mk 2 3 RIGHT, 1, PLAYING).
Proof.
  split.
  - eexists. split; [apply spec_state_graph_value|].
    apply (bool_decide_unpack _). vm_compute. exact I.
  - repeat split; reflexivity.
Qed.

Lemma try_cross_river_commits_witness :
  Boat.is_moving (GC.boat (GC.boarded [MRef 0])) = false
  /\ Boat.passengers (GC.boat (GC.boarded [MRef 0])) <> []
  /\ GC.move_count (GC.try_cross_river (GC.boarded [MRef 0]))
     = GC.move_count (GC.boarded [MRef 0]) + 1.
Proof.
  split; [reflexivity|]. split; [discriminate|].
  apply (try_cross_river_commits (GC.boarded [MRef 0]));
    [reflexivity | discriminate].
Defined.

(** ** finish_crossing, start_eating_animation and update *)

Lemma disembark_state (c : GC.t) :
  GC.state (GC.disembark c) = GC.state c
  /\ GC.move_count (GC.disembark c) = GC.move_count c
  /\ GC.current_screen (GC.disembark c) = GC.current_screen c
  /\ GC.eating_timer (GC.disembark c) = GC.eating_timer c.
Proof.
  unfold GC.disembark.
  destruct (foldl_modify_frame (Character.set_boarded false)
              (Boat.passengers (GC.boat c)) c)
    as (_ & Hs & Hn & Hscr & Ht & _).
  simpl. auto.
Qed.

(** [losing_side] names the bank on which the missionaries are outnumbered,
    and [None] when there is no such bank. *)
Lemma losing_side_spec (s : GameState.t) :
  (GC.losing_side s = Some "left" <->
   GameState.spec_bank_unsafe (GameState.missionaries_left s)
                              (GameState.cannibals_left s))
  /\ (GC.losing_side s = Some "right" <->
      GameState.spec_bank_unsafe (GameState.missionaries_right s)
                                 (GameState.cannibals_right s))
  /\ (GC.losing_side s = None <-> ~ GameState.spec_unsafe s).
Proof.
  destruct s as [m k b].
  unfold GC.losing_side, GameState.spec_unsafe, GameState.spec_bank_unsafe,
    GameState.missionaries_right, GameState.cannibals_right; simpl.
  repeat case_bool_decide; simpl; repeat split; try intros ?;
    try congruence; try lia.
Qed.

Lemma start_eating_animation_missionaries (c : GC.t) :
  GC.missionaries (GC.start_eating_animation c)
  = (fun m => if bool_decide (Some (Character.side m) = GC.losing_side (GC.state c))
              then Character.set_being_eaten true m else m)
      <$> GC.missionaries c.
Proof. reflexivity. Qed.




(** C9: from a new game, clicking two cannibals and calling
    [try_cross_river] leaves (3,1,RIGHT), move counter 1 and the screen
    PLAYING while the boat sails; the boat arrives on the 121st frame, where
    [finish_crossing] asks [is_valid] about (3,1,RIGHT) and the TypeError
    ends the session.  With nobody aboard [try_cross_river] changes
    nothing. *)
Theorem scenario_A_raises_on_arrival (dt : float) (c : GC.t) :
  GC.run_clicks [CRef 0; CRef 1] (GC.fresh []) = Ok (GC.boarded [CRef 0; CRef 1])
  /\ GC.observe (GC.try_cross_river (GC.boarded [CRef 0; CRef 1]))
     = (GameState.mk 3 1 RIGHT, 1, PLAYING)
  /\ GC.observe <$> GC.run_updates 120 dt
                      (GC.try_cross_river (GC.boarded [CRef 0; CRef 1]))
     = Ok (GameState.mk 3 1 RIGHT, 1, PLAYING)
  /\ GC.run_updates 121 dt (GC.try_cross_river (GC.boarded [CRef 0; CRef 1]))
     = Raise TypeError
  /\ GC.finish_crossing (GC.try_cross_river (GC.boarded [CRef 0; CRef 1]))
     = Raise TypeError
  /\ GC.try_cross_river (GC.set_boat (Boat.set_passengers [] (GC.boat c)) c)
     = GC.set_boat (Boat.set_passengers [] (GC.boat c)) c.
Proof.
  repeat split; try (vm_compute; reflexivity).
  apply try_cross_river_idle. right. reflexivity.
Qed.

(** ** Counting characters *)

Lemma count_side_3 s (l : list Character.t) :
  length l = 3%nat ->
  GC.count_side s l
  = GC.on_side s (l !! 0%nat) + GC.on_side s (l !! 1%nat)
    + GC.on_side s (l !! 2%nat).
Proof.
  destruct l as [|a [|b [|c [|d l]]]]; try discriminate. intros _.
  unfold GC.count_side; simpl. lia.
Qed.

Lemma count_side_bounds s (l : list Character.t) :
  0 <= GC.count_side s l <= Z.of_nat (length l).
Proof.
  unfold GC.count_side. induction l as [|a l IH]; simpl; [lia|].
  destruct (bool_decide (Character.side a = s)); lia.
Qed.

Lemma count_if_ext {A} (p q : A -> bool) (l : list A) :
  (forall x, x ∈ l -> p x = q x) -> count_if p l = count_if q l.
Proof.
  induction l as [|a l IH]; intros H; simpl; [reflexivity|].
  rewrite (H a) by apply list_elem_of_here.
  rewrite IH; [reflexivity|]. intros x Hx. apply H, list_elem_of_further, Hx.
Qed.

Lemma aboard_cons_eq r (p : list CharRef) : GC.aboard r (r :: p) = 1.
Proof.
  unfold GC.aboard. rewrite bool_decide_eq_true_2; [reflexivity|].
  apply list_elem_of_here.
Qed.

Lemma aboard_cons_ne r a (p : list CharRef) :
  a <> r -> GC.aboard r (a :: p) = GC.aboard r p.
Proof.
  intros Hne. unfold GC.aboard.
  apply (f_equal (fun b : bool => if b then 1 else 0)).
  apply bool_decide_ext. rewrite elem_of_cons.
  split; [intros [E|E]; [congruence | exact E] | auto].
Qed.

Lemma aboard_not_in r (p : list CharRef) : r ∉ p -> GC.aboard r p = 0.
Proof. intros H. unfold GC.aboard. rewrite bool_decide_eq_false_2; auto. Qed.

(** In a list of distinct references to the three objects of one kind, the
    references of that kind are counted by membership. *)
Lemma count_refs (k : nat -> CharRef) (q : CharRef -> bool) (p : list CharRef) :
  (forall i j, k i = k j -> i = j) ->
  (forall r, q r = true <-> exists i, r = k i) ->
  NoDup p ->
  (forall i, k i ∈ p -> (i < 3)%nat) ->
  count_if q p
  = GC.aboard (k 0%nat) p + GC.aboard (k 1%nat) p + GC.aboard (k 2%nat) p.
Proof.
  intros Hinj Hq. induction p as [|a p IH]; intros Hnd Hlt.
  - reflexivity.
  - apply NoDup_cons in Hnd as [Ha Hnd]. cbn [count_if].
    rewrite IH; [|assumption|intros i Hi; apply Hlt, list_elem_of_further, Hi].
    destruct (q a) eqn:Hk.
    + apply Hq in Hk as [i ->].
      assert (i < 3)%nat as Hi by apply Hlt, list_elem_of_here.
      destruct i as [|[|[|i]]]; [| | |lia];
        rewrite aboard_cons_eq, (aboard_not_in _ p Ha);
        rewrite !aboard_cons_ne by (intros E; apply Hinj in E; lia); lia.
    + rewrite !aboard_cons_ne
        by (intros ->; apply not_true_iff_false in Hk; apply Hk, Hq; eauto).
      lia.
Qed.

(** ** The representation invariant *)

Lemma Inv_fresh (g : StateGraph) : GC.Inv (GC.fresh g).
Proof.
  constructor; try reflexivity.
  - intros [[|[|[|i]]]|[|[|[|i]]]] ch H; simpl in H; simplify_eq; reflexivity.
  - apply NoDup_nil_2.
  - intros r H. simpl in H. inversion H.
  - intros [[|[|[|i]]]|[|[|[|i]]]] ch H Hb; simpl in H; simplify_eq;
      discriminate.
  - simpl. lia.
Qed.

Lemma m_count_aboard (c : GC.t) :
  GC.Inv c ->
  GC.m_count c
  = GC.aboard (MRef 0) (Boat.passengers (GC.boat c))
    + GC.aboard (MRef 1) (Boat.passengers (GC.boat c))
    + GC.aboard (MRef 2) (Boat.passengers (GC.boat c)).
Proof.
  intros HI. unfold GC.m_count.
  rewrite (count_if_ext _ (fun r => match r with MRef _ => true | CRef _ => false end)).
  - apply count_refs.
    + intros i j E. congruence.
    + intros [i|i]; split; intros H; try discriminate; eauto.
      destruct H as [j H]. discriminate.
    + apply HI.
    + intros i Hi. destruct (GC.inv_pass c HI _ Hi) as (ch & Hd & _).
      apply lookup_lt_Some in Hd. rewrite (GC.inv_m_len c HI) in Hd. exact Hd.
  - intros r Hr. destruct (GC.inv_pass c HI _ Hr) as (ch & Hd & _).
    unfold GC.has_type. rewrite Hd, (GC.inv_type c HI _ _ Hd).
    destruct r; reflexivity.
Qed.

Lemma c_count_aboard (c : GC.t) :
  GC.Inv c ->
  GC.c_count c
  = GC.aboard (CRef 0) (Boat.passengers (GC.boat c))
    + GC.aboard (CRef 1) (Boat.passengers (GC.boat c))
    + GC.aboard (CRef 2) (Boat.passengers (GC.boat c)).
Proof.
  intros HI. unfold GC.c_count.
  rewrite (count_if_ext _ (fun r => match r with MRef _ => false | CRef _ => true end)).
  - apply count_refs.
    + intros i j E. congruence.
    + intros [i|i]; split; intros H; try discriminate; eauto.
      destruct H as [j H]. discriminate.
    + apply HI.
    + intros i Hi. destruct (GC.inv_pass c HI _ Hi) as (ch & Hd & _).
      apply lookup_lt_Some in Hd. rewrite (GC.inv_c_len c HI) in Hd. exact Hd.
  - intros r Hr. destruct (GC.inv_pass c HI _ Hr) as (ch & Hd & _).
    unfold GC.has_type. rewrite Hd, (GC.inv_type c HI _ _ Hd).
    destruct r; reflexivity.
Qed.

(** What moving the passengers to side [ns] does to one character's
    contribution to the left-bank count. *)
Lemma on_side_moved (c : GC.t) r ns :
  GC.Inv c ->
  GC.on_side "left"
    (if decide (r ∈ Boat.passengers (GC.boat c))
     then Character.set_side ns <$> GC.deref r c else GC.deref r c)
  = GC.on_side "left" (GC.deref r c)
    + GC.aboard r (Boat.passengers (GC.boat c))
      * ((if bool_decide (ns = "left") then 1 else 0)
         - (if bool_decide (GC.side_of (GameState.boat (GC.state c)) = "left")
            then 1 else 0)).
Proof.
  intros HI. unfold GC.aboard.
  destruct (decide (r ∈ Boat.passengers (GC.boat c))) as [Hin|Hin].
  - rewrite bool_decide_eq_true_2 by assumption.
    destruct (GC.inv_pass c HI _ Hin) as (ch & Hd & _ & Hs).
    rewrite Hd. simpl. rewrite Hs. lia.
  - rewrite bool_decide_eq_false_2 by assumption. lia.
Qed.

Lemma Inv_try_cross_river (c : GC.t) : GC.Inv c -> GC.Inv (GC.try_cross_river c).
Proof.
  intros HI.
  destruct (Boat.is_moving (GC.boat c)) eqn:Hm.
  { rewrite try_cross_river_idle by auto. exact HI. }
  destruct (decide (Boat.passengers (GC.boat c) = [])) as [Hp|Hp].
  { rewrite try_cross_river_idle by auto. exact HI. }
  pose proof (try_cross_river_fields c Hm Hp)
    as (Hst & _ & _ & _ & Hpass & Hsel & Hlm & Hlc).
  pose proof (fun r => deref_try_cross_river c r Hm Hp) as Hd.
  destruct HI as [Lm Lc Ty Cm Cc Nd Ps Ib Se Le].
  assert (HI : GC.Inv c) by (constructor; assumption).
  constructor.
  - congruence.
  - congruence.
  - intros r ch. rewrite Hd. destruct (decide _); [|apply Ty].
    destruct (GC.deref r c) as [ch0|] eqn:E; [|discriminate].
    simpl. intros [= <-]. simpl. apply Ty, E.
  - rewrite count_side_3 by congruence.
    change (GC.missionaries (GC.try_cross_river c) !! 0%nat)
      with (GC.deref (MRef 0) (GC.try_cross_river c)).
    change (GC.missionaries (GC.try_cross_river c) !! 1%nat)
      with (GC.deref (MRef 1) (GC.try_cross_river c)).
    change (GC.missionaries (GC.try_cross_river c) !! 2%nat)
      with (GC.deref (MRef 2) (GC.try_cross_river c)).
    rewrite !Hd, !on_side_moved by assumption.
    rewrite Hst, Cm, (count_side_3 _ _ Lm), (m_count_aboard c HI).
    simpl GC.deref.
    destruct (GameState.boat (GC.state c)); simpl; lia.
  - rewrite count_side_3 by congruence.
    change (GC.cannibals (GC.try_cross_river c) !! 0%nat)
      with (GC.deref (CRef 0) (GC.try_cross_river c)).
    change (GC.cannibals (GC.try_cross_river c) !! 1%nat)
      with (GC.deref (CRef 1) (GC.try_cross_river c)).
    change (GC.cannibals (GC.try_cross_river c) !! 2%nat)
      with (GC.deref (CRef 2) (GC.try_cross_river c)).
    rewrite !Hd, !on_side_moved by assumption.
    rewrite Hst, Cc, (count_side_3 _ _ Lc), (c_count_aboard c HI).
    simpl GC.deref.
    destruct (GameState.boat (GC.state c)); simpl; lia.
  - congruence.
  - intros r. rewrite Hpass. intros Hr.
    destruct (Ps r Hr) as (ch & E & Hb & _).
    rewrite Hd, decide_True, E by assumption. simpl. eauto.
  - intros r ch. rewrite Hd, Hpass.
    destruct (decide _) as [Hin|Hin]; [auto|]. apply Ib.
  - congruence.
  - rewrite Hpass. exact Le.
Qed.

(** ** handle_character_click *)

Lemma remove_spec {A} `{EqDecision A} (x : A) (l : list A) :
  NoDup l -> x ∈ l ->
  exists l', remove x l = Ok l'
             /\ NoDup l'
             /\ (forall y, y ∈ l' <-> y ∈ l /\ y <> x)
             /\ length l = S (length l').
Proof.
  induction l as [|a l IH]; intros Hnd Hin; [inversion Hin|].
  apply NoDup_cons in Hnd as [Ha Hnd]. cbn [remove].
  destruct (decide (a = x)) as [->|Hne].
  - exists l. split; [reflexivity|]. split; [assumption|].
    split; [|reflexivity]. intros y. rewrite elem_of_cons. split.
    + intros Hy. split; [auto|]. intros ->. contradiction.
    + intros [[->|Hy] Hne]; [congruence | assumption].
  - apply elem_of_cons in Hin as [->|Hin]; [contradiction|].
    destruct (IH Hnd Hin) as (l' & -> & Hnd' & Hmem & Hlen).
    exists (a :: l'). split; [reflexivity|]. split; [|split].
    + apply NoDup_cons. split; [|assumption].
      intros Ha'. apply Hmem in Ha' as [? _]. contradiction.
    + intros y. rewrite !elem_of_cons, Hmem. split.
      * intros [->|[Hy Hx]]; auto.
      * intros [[->|Hy] Hx]; auto.
    + simpl. lia.
Qed.

Lemma click_moving (c : GC.t) r :
  Boat.is_moving (GC.boat c) = true -> GC.handle_character_click r c = Ok c.
Proof. intros H. unfold GC.handle_character_click. rewrite H. reflexivity. Qed.

Lemma click_dangling (c : GC.t) r :
  GC.deref r c = None -> GC.handle_character_click r c = Ok c.
Proof.
  intros H. unfold GC.handle_character_click. rewrite H.
  destruct (Boat.is_moving (GC.boat c)); reflexivity.
Qed.

(** The three branches of a click on an existing character, boat at rest. *)
Lemma click_unboard (c : GC.t) r ch :
  GC.Inv c ->
  Boat.is_moving (GC.boat c) = false ->
  GC.deref r c = Some ch ->
  Character.in_boat ch = true ->
  exists p,
    remove r (Boat.passengers (GC.boat c)) = Ok p
    /\ GC.handle_character_click r c
       = Ok (GC.set_selected_characters p
               (GC.set_boat (Boat.set_passengers p (GC.boat c))
                  (GC.modify
                     (fun x => Character.set_side
                                 (GC.side_of (GameState.boat (GC.state c)))
                                 (Character.set_boarded false x))
                     r c))).
Proof.
  intros HI Hm Hd Hb.
  destruct (remove_spec r (Boat.passengers (GC.boat c)))
    as (p & Hrm & _); [apply HI | eapply GC.inv_in_boat; eauto |].
  exists p. split; [exact Hrm|].
  unfold GC.handle_character_click. rewrite Hm, Hd, Hb.
  destruct (modify_frame
              (fun x => Character.set_side
                          (GC.side_of (GameState.boat (GC.state c)))
                          (Character.set_boarded false x)) r c)
    as (_ & _ & _ & _ & _ & Hboat & Hsel & _).
  rewrite Hboat, Hrm. cbn [mbind result_bind].
  change (GC.selected_characters (GC.set_boat ?b ?x))
    with (GC.selected_characters x).
  rewrite Hsel, (GC.inv_selected c HI), Hrm. reflexivity.
Qed.

Lemma click_board (c : GC.t) r ch :
  Boat.is_moving (GC.boat c) = false ->
  GC.deref r c = Some ch ->
  Character.in_boat ch = false ->
  Character.side ch = GC.side_of (GameState.boat (GC.state c)) ->
  (length (Boat.passengers (GC.boat c)) < 2)%nat ->
  GC.handle_character_click r c
  = Ok (GC.set_selected_characters (GC.selected_characters c ++ [r])
          (GC.set_boat
             (Boat.set_passengers (Boat.passengers (GC.boat c) ++ [r]) (GC.boat c))
             (GC.modify (Character.set_boarded true) r c))).
Proof.
  intros Hm Hd Hb Hs Hl.
  unfold GC.handle_character_click. rewrite Hm, Hd, Hb.
  rewrite !bool_decide_eq_true_2 by assumption. cbn [andb].
  destruct r; reflexivity.
Qed.

Lemma click_ignored (c : GC.t) r ch :
  GC.deref r c = Some ch ->
  Character.in_boat ch = false ->
  ~ (Character.side ch = GC.side_of (GameState.boat (GC.state c))
     /\ (length (Boat.passengers (GC.boat c)) < 2)%nat) ->
  GC.handle_character_click r c = Ok c.
Proof.
  intros Hd Hb Hn.
  unfold GC.handle_character_click. rewrite Hd, Hb.
  destruct (Boat.is_moving (GC.boat c)); [reflexivity|].
  repeat case_bool_decide; try reflexivity. tauto.
Qed.

(** A click never touches the configuration, the move counter, the screen
    or the timer. *)
Lemma click_frame (c c' : GC.t) r :
  GC.handle_character_click r c = Ok c' ->
  GC.state c' = GC.state c
  /\ GC.move_count c' = GC.move_count c
  /\ GC.current_screen c' = GC.current_screen c
  /\ GC.eating_timer c' = GC.eating_timer c
  /\ Boat.is_moving (GC.boat c') = Boat.is_moving (GC.boat c)
  /\ length (GC.missionaries c') = length (GC.missionaries c)
  /\ length (GC.cannibals c') = length (GC.cannibals c).
Proof.
  unfold GC.handle_character_click.
  destruct (Boat.is_moving (GC.boat c)) eqn:Hm; [intros [= <-]; auto 10|].
  destruct (GC.deref r c) as [ch|]; [|intros [= <-]; auto 10].
  destruct (Character.in_boat ch).
  - match goal with
    | |- context [GC.modify ?f r c] =>
        destruct (modify_frame f r c) as (_ & Hs & Hn & Hscr & Ht & Hb & _ & Hlm & Hlc);
        generalize dependent (GC.modify f r c)
    end.
    intros c1 Hs Hn Hscr Ht Hb Hlm Hlc.
    destruct (remove r (Boat.passengers (GC.boat c1))) as [p|]; [|discriminate].
    cbn [mbind result_bind].
    destruct (remove r _) as [q|]; [|discriminate].
    cbn [mbind result_bind]. intros [= <-]. simpl.
    rewrite Hb in *. auto 10.
  - destruct (_ && _).
    + destruct (modify_frame (Character.set_boarded true) r c)
        as (_ & Hs & Hn & Hscr & Ht & Hb & _ & Hlm & Hlc).
      intros [= <-]. simpl. rewrite Hb. auto 10.
    + intros [= <-]. auto 10.
Qed.

(** ** Preservation of the invariant *)

Lemma deref_None_length (c c' : GC.t) r :
  length (GC.missionaries c') = length (GC.missionaries c) ->
  length (GC.cannibals c') = length (GC.cannibals c) ->
  GC.deref r c' = None -> GC.deref r c = None.
Proof.
  intros Hm Hc. destruct r as [i|i]; simpl; rewrite !lookup_ge_None; lia.
Qed.

(** The fields of the invariant that only look at types and sides carry
    over to a controller whose characters kept both. *)
Lemma Inv_transfer (c c' : GC.t) :
  GC.Inv c ->
  GC.state c' = GC.state c ->
  length (GC.missionaries c') = length (GC.missionaries c) ->
  length (GC.cannibals c') = length (GC.cannibals c) ->
  (forall r ch', GC.deref r c' = Some ch' ->
     exists ch, GC.deref r c = Some ch
                /\ Character.char_type ch' = Character.char_type ch
                /\ Character.side ch' = Character.side ch) ->
  NoDup (Boat.passengers (GC.boat c')) ->
  (forall r, r ∈ Boat.passengers (GC.boat c') ->
     exists ch, GC.deref r c' = Some ch
                /\ Character.in_boat ch = true
                /\ Character.side ch = GC.side_of (GameState.boat (GC.state c'))) ->
  (forall r ch, GC.deref r c' = Some ch -> Character.in_boat ch = true ->
                r ∈ Boat.passengers (GC.boat c')) ->
  GC.selected_characters c' = Boat.passengers (GC.boat c') ->
  (length (Boat.passengers (GC.boat c')) <= 2)%nat ->
  GC.Inv c'.
Proof.
  intros HI Hst Hlm Hlc Hd Hnd Hps Hib Hsel Hlen.
  assert (Hon : forall r, GC.on_side "left" (GC.deref r c')
                          = GC.on_side "left" (GC.deref r c)).
  { intros r. destruct (GC.deref r c') as [ch'|] eqn:E.
    - destruct (Hd r ch' E) as (ch & -> & _ & Hs). simpl. rewrite Hs. reflexivity.
    - rewrite (deref_None_length c c' r Hlm Hlc E). reflexivity. }
  destruct HI as [Lm Lc Ty Cm Cc _ _ _ _ _].
  constructor; try assumption; try congruence.
  - intros r ch' E. destruct (Hd r ch' E) as (ch & E0 & -> & _). apply Ty, E0.
  - rewrite Hst, Cm, !count_side_3 by congruence.
    pose proof (Hon (MRef 0)) as H0. pose proof (Hon (MRef 1)) as H1.
    pose proof (Hon (MRef 2)) as H2. simpl in H0, H1, H2. lia.
  - rewrite Hst, Cc, !count_side_3 by congruence.
    pose proof (Hon (CRef 0)) as H0. pose proof (Hon (CRef 1)) as H1.
    pose proof (Hon (CRef 2)) as H2. simpl in H0, H1, H2. lia.
Qed.

(** The invariant does not read the move counter, the screen, the timer,
    the state graph or the boat's position. *)
Lemma Inv_same (c c' : GC.t) :
  GC.Inv c ->
  GC.state c' = GC.state c ->
  GC.missionaries c' = GC.missionaries c ->
  GC.cannibals c' = GC.cannibals c ->
  Boat.passengers (GC.boat c') = Boat.passengers (GC.boat c) ->
  GC.selected_characters c' = GC.selected_characters c ->
  GC.Inv c'.
Proof.
  intros HI Hst Hm Hc Hp Hs.
  assert (Hd : forall r, GC.deref r c' = GC.deref r c)
    by (intros [i|i]; simpl; congruence).
  destruct HI as [Lm Lc Ty Cm Cc Nd Ps Ib Se Le].
  constructor; rewrite ?Hst, ?Hm, ?Hc, ?Hp, ?Hs; try assumption.
  - intros r ch. rewrite Hd. apply Ty.
  - intros r Hr. rewrite Hd. apply Ps, Hr.
  - intros r ch. rewrite Hd. apply Ib.
Qed.

Lemma Inv_click (c c' : GC.t) r :
  GC.Inv c -> GC.handle_character_click r c = Ok c' -> GC.Inv c'.
Proof.
  intros HI Hclick.
  destruct (Boat.is_moving (GC.boat c)) eqn:Hm.
  { rewrite click_moving in Hclick by assumption. congruence. }
  destruct (GC.deref r c) as [ch|] eqn:Hd.
  2: { rewrite click_dangling in Hclick by assumption. congruence. }
  destruct (Character.in_boat ch) eqn:Hb.
  - (* leaving the boat *)
    destruct (click_unboard c r ch HI Hm Hd Hb) as (p & Hrm & Hc').
    rewrite Hc' in Hclick. injection Hclick as <-.
    assert (Hin : r ∈ Boat.passengers (GC.boat c))
      by (eapply GC.inv_in_boat; eauto).
    destruct (remove_spec r _ (GC.inv_nodup c HI) Hin)
      as (p' & Hrm' & Hnd & Hmem & Hlen).
    rewrite Hrm in Hrm'. injection Hrm' as <-.
    destruct (GC.inv_pass c HI r Hin) as (ch0 & Hd0 & _ & Hside).
    rewrite Hd in Hd0. injection Hd0 as <-.
    match goal with
    | |- GC.Inv (GC.set_selected_characters _ (GC.set_boat _ (GC.modify ?f r c))) =>
        pose proof (modify_frame f r c) as (_ & Hst & _ & _ & _ & _ & _ & Hlm & Hlc);
        pose proof (fun r0 => deref_modify f r r0 c) as Hdm
    end.
    eapply (Inv_transfer c); simpl; try eassumption; try reflexivity.
    + intros r0 ch'.
      change (GC.deref r0 (GC.set_selected_characters ?a (GC.set_boat ?b ?x)))
        with (GC.deref r0 x).
      rewrite Hdm. destruct (decide (r = r0)) as [<-|Hne]; [|eauto].
      rewrite Hd. simpl. intros [= <-]. exists ch. simpl. auto.
    + intros r0 Hr0. apply Hmem in Hr0 as [Hr0 Hne].
      change (GC.deref r0 (GC.set_selected_characters ?a (GC.set_boat ?b ?x)))
        with (GC.deref r0 x).
      rewrite Hdm, decide_False by congruence.
      rewrite ?Hst.
      apply HI, Hr0.
    + intros r0 ch'.
      change (GC.deref r0 (GC.set_selected_characters ?a (GC.set_boat ?b ?x)))
        with (GC.deref r0 x).
      rewrite Hdm. destruct (decide (r = r0)) as [<-|Hne].
      * rewrite Hd. simpl. intros [= <-]. simpl. discriminate.
      * intros E Hb'. apply Hmem. split; [|congruence].
        eapply GC.inv_in_boat; eauto.
    + pose proof (GC.inv_pass_len c HI). lia.
  - destruct (decide (Character.side ch = GC.side_of (GameState.boat (GC.state c))
                      /\ (length (Boat.passengers (GC.boat c)) < 2)%nat))
      as [[Hs Hl]|Hn].
    2: { rewrite (click_ignored c r ch) in Hclick by assumption. congruence. }
    (* boarding *)
    rewrite (click_board c r ch Hm Hd Hb Hs Hl) in Hclick.
    injection Hclick as <-.
    assert (Hnin : r ∉ Boat.passengers (GC.boat c)).
    { intros Hin. destruct (GC.inv_pass c HI r Hin) as (ch0 & Hd0 & Hb0 & _).
      congruence. }
    pose proof (modify_frame (Character.set_boarded true) r c)
      as (_ & Hst & _ & _ & _ & _ & _ & Hlm & Hlc).
    pose proof (fun r0 => deref_modify (Character.set_boarded true) r r0 c) as Hdm.
    eapply (Inv_transfer c); simpl; try eassumption; try reflexivity.
    + intros r0 ch'.
      change (GC.deref r0 (GC.set_selected_characters ?a (GC.set_boat ?b ?x)))
        with (GC.deref r0 x).
      rewrite Hdm. destruct (decide (r = r0)) as [<-|Hne]; [|eauto].
      rewrite Hd. simpl. intros [= <-]. exists ch. simpl. auto.
    + apply NoDup_app. split; [apply HI|]. split; [|apply NoDup_singleton].
      intros x Hx Hx'. apply list_elem_of_singleton in Hx'. congruence.
    + intros r0 Hr0.
      change (GC.deref r0 (GC.set_selected_characters ?a (GC.set_boat ?b ?x)))
        with (GC.deref r0 x).
      rewrite ?Hst.
      rewrite Hdm. apply elem_of_app in Hr0 as [Hr0|Hr0].
      * rewrite decide_False by congruence. apply HI, Hr0.
      * apply list_elem_of_singleton in Hr0 as ->.
        rewrite decide_True, Hd by reflexivity. simpl. eauto.
    + intros r0 ch'.
      change (GC.deref r0 (GC.set_selected_characters ?a (GC.set_boat ?b ?x)))
        with (GC.deref r0 x).
      rewrite Hdm, elem_of_app, list_elem_of_singleton.
      destruct (decide (r = r0)) as [<-|Hne]; [auto|].
      intros E Hb'. left. eapply GC.inv_in_boat; eauto.
    + rewrite (GC.inv_selected c HI). reflexivity.
    + rewrite length_app. simpl. lia.
Qed.

Lemma deref_disembark (c : GC.t) r :
  GC.deref r (GC.disembark c)
  = if decide (r ∈ Boat.passengers (GC.boat c))
    then Character.set_boarded false <$> GC.deref r c else GC.deref r c.
Proof.
  unfold GC.disembark.
  change (GC.deref r (GC.set_selected_characters ?a (GC.set_boat ?b ?x)))
    with (GC.deref r x).
  apply deref_foldl_modify. reflexivity.
Qed.

Lemma Inv_disembark (c : GC.t) : GC.Inv c -> GC.Inv (GC.disembark c).
Proof.
  intros HI.
  destruct (foldl_modify_frame (Character.set_boarded false)
              (Boat.passengers (GC.boat c)) c)
    as (_ & _ & _ & _ & _ & _ & _ & Hlm & Hlc).
  apply (Inv_transfer c); try assumption; try reflexivity.
  - apply disembark_state.
  - intros r ch'. rewrite deref_disembark.
    destruct (decide _); [|eauto].
    destruct (GC.deref r c) as [ch|]; [|discriminate].
    simpl. intros [= <-]. eauto.
  - apply NoDup_nil_2.
  - intros r Hr. inversion Hr.
  - intros r ch'. rewrite deref_disembark.
    destruct (decide _) as [Hin|Hin].
    + destruct (GC.deref r c) as [ch|]; [|discriminate].
      simpl. intros [= <-]. discriminate.
    + intros E Hb. exfalso. apply Hin. eapply GC.inv_in_boat; eauto.
  - simpl. lia.
Qed.

Lemma Inv_start_eating_animation (c : GC.t) :
  GC.Inv c -> GC.Inv (GC.start_eating_animation c).
Proof.
  intros HI.
  assert (Hd : forall r ch', GC.deref r (GC.start_eating_animation c) = Some ch' ->
             exists ch, GC.deref r c = Some ch
                        /\ Character.char_type ch' = Character.char_type ch
                        /\ Character.side ch' = Character.side ch
                        /\ Character.in_boat ch' = Character.in_boat ch).
  { intros [i|i] ch'; [|simpl; eauto].
    simpl. rewrite list_lookup_fmap.
    destruct (GC.missionaries c !! i) as [ch|]; [|discriminate].
    simpl. intros [= <-]. exists ch. split; [reflexivity|].
    destruct (bool_decide _); auto. }
  apply (Inv_transfer c); try assumption; try reflexivity.
  - simpl. apply length_fmap.
  - intros r ch' E. destruct (Hd r ch' E) as (ch & ? & ? & ? & _). eauto.
  - apply HI.
  - intros r Hr. destruct (GC.inv_pass c HI r Hr) as (ch & E & Hb & Hs).
    destruct r as [i|i]; [|simpl; eauto].
    simpl in *. rewrite list_lookup_fmap, E. simpl.
    eexists. split; [reflexivity|]. destruct (bool_decide _); auto.
  - intros r ch' E Hb. destruct (Hd r ch' E) as (ch & E0 & _ & _ & Hb0).
    apply (GC.inv_in_boat c HI r ch E0). congruence.
  - apply HI.
  - apply HI.
Qed.

Lemma Inv_finish_crossing (c c' : GC.t) :
  GC.Inv c -> GC.finish_crossing c = Ok c' -> GC.Inv c'.
Proof.
  intros HI. apply Inv_disembark in HI. unfold GC.finish_crossing.
  destruct (GameState.is_goal _).
  - intros [= <-]. eapply Inv_same; [exact HI|..]; reflexivity.
  - destruct (GameState.is_valid _) as [[|]|]; simpl; try discriminate;
      intros [= <-]; [exact HI|].
    apply Inv_start_eating_animation, HI.
Qed.

Lemma boat_update_passengers (b : Boat.t) :
  Boat.passengers (Boat.update b) = Boat.passengers b.
Proof. unfold Boat.update. destruct (bool_decide _); reflexivity. Qed.

Lemma Inv_update (c c' : GC.t) dt :
  GC.Inv c -> GC.update dt c = Ok c' -> GC.Inv c'.
Proof.
  intros HI. unfold GC.update.
  destruct (decide (GC.current_screen c = EATING)).
  { destruct (_ <=? _)%float; intros [= <-];
      (eapply Inv_same; [exact HI|..]; reflexivity). }
  destruct (decide (GC.current_screen c <> PLAYING)); [congruence|].
  assert (HI1 : GC.Inv (GC.set_boat (Boat.update (GC.boat c)) c)).
  { eapply Inv_same; [exact HI|..]; try reflexivity.
    apply boat_update_passengers. }
  destruct (_ && _); [apply Inv_finish_crossing, HI1 | congruence].
Qed.

Lemma Inv_step (c c' : GC.t) : GC.Inv c -> GC.step c c' -> GC.Inv c'.
Proof.
  intros HI Hstep. destruct Hstep.
  - apply Inv_fresh.
  - eapply Inv_click; eauto.
  - apply Inv_try_cross_river, HI.
  - eapply Inv_update; eauto.
Qed.

Lemma reachable_Inv (c : GC.t) : GC.reachable c -> GC.Inv c.
Proof.
  induction 1 as [c|c c' _ IH Hstep]; [apply Inv_fresh|].
  eapply Inv_step; eauto.
Qed.

Lemma reachable_run_clicks (chars : list CharRef) (c d : GC.t) :
  GC.reachable c -> GC.reachable d ->
  GC.reachable (match GC.run_clicks chars c with Ok c' => c' | Raise _ => d end).
Proof.
  unfold GC.run_clicks. intros Hc Hd. revert c Hc.
  induction chars as [|r chars IH]; intros c Hc; simpl; [exact Hc|].
  destruct (GC.handle_character_click r c) as [c1|] eqn:E; simpl; [|exact Hd].
  apply IH. eapply GC.reachable_step; [exact Hc|]. eapply GC.step_click, E.
Qed.

Lemma reachable_boarded (chars : list CharRef) : GC.reachable (GC.boarded chars).
Proof.
  apply reachable_run_clicks; apply (GC.reachable_reset (GC.fresh [])).
Qed.

(** ** The claims about clicks and about reachable states *)

(** C8: in a reachable state with the boat at rest (the specification's
    Playing, no crossing in progress), a click on a character always returns,
    leaving the configuration, the move counter, the screen and every other
    character as they were.  A boarded character leaves the boat: it is
    dropped from the passenger list, is no longer flagged as in the boat and
    its side is the boat's bank.  A character that is not boarded is appended
    to the passengers when its side is the boat's bank and fewer than two are
    aboard, and otherwise nothing changes at all. *)
Theorem handle_character_click_toggles (c : GC.t) (r : CharRef) (ch : Character.t) :
  GC.reachable c ->
  Boat.is_moving (GC.boat c) = false ->
  GC.deref r c = Some ch ->
  exists c',
    GC.handle_character_click r c = Ok c'
    /\ GC.state c' = GC.state c
    /\ GC.move_count c' = GC.move_count c
    /\ GC.current_screen c' = GC.current_screen c
    /\ (forall r', r' <> r -> GC.deref r' c' = GC.deref r' c)
    /\ (r ∈ Boat.passengers (GC.boat c) ->
        (r ∉ Boat.passengers (GC.boat c'))
        /\ (forall r', r' ∈ Boat.passengers (GC.boat c')
                       <-> r' ∈ Boat.passengers (GC.boat c) /\ r' <> r)
        /\ exists ch', GC.deref r c' = Some ch'
                       /\ Character.in_boat ch' = false
                       /\ Character.side ch'
                          = GC.side_of (GameState.boat (GC.state c)))
    /\ (r ∉ Boat.passengers (GC.boat c) ->
        Character.side ch = GC.side_of (GameState.boat (GC.state c)) ->
        (length (Boat.passengers (GC.boat c)) < 2)%nat ->
        Boat.passengers (GC.boat c') = Boat.passengers (GC.boat c) ++ [r]
        /\ exists ch', GC.deref r c' = Some ch' /\ Character.in_boat ch' = true)
    /\ (r ∉ Boat.passengers (GC.boat c) ->
        ~ (Character.side ch = GC.side_of (GameState.boat (GC.state c))
           /\ (length (Boat.passengers (GC.boat c)) < 2)%nat) ->
        c' = c).
Proof.
  intros Hreach Hm Hd. pose proof (reachable_Inv c Hreach) as HI.
  destruct (Character.in_boat ch) eqn:Hb.
  - assert (Hin : r ∈ Boat.passengers (GC.boat c))
      by (eapply GC.inv_in_boat; eauto).
    destruct (click_unboard c r ch HI Hm Hd Hb) as (p & Hrm & Hc').
    destruct (remove_spec r _ (GC.inv_nodup c HI) Hin)
      as (p' & Hrm' & _ & Hmem & _).
    rewrite Hrm in Hrm'. injection Hrm' as <-.
    eexists. split; [exact Hc'|].
    destruct (click_frame c _ r Hc') as (Hs & Hn & Hscr & _).
    split; [exact Hs|]. split; [exact Hn|]. split; [exact Hscr|].
    split; [|split; [|split]]; try contradiction.
    + intros r' Hne.
      change (GC.deref r' (GC.set_selected_characters ?a (GC.set_boat ?b ?x)))
        with (GC.deref r' x).
      rewrite deref_modify, decide_False by congruence. reflexivity.
    + intros _. simpl. split; [|split; [exact Hmem|]].
      * intros Hr. apply Hmem in Hr as [_ Hne]. congruence.
      * change (GC.deref r (GC.set_selected_characters ?a (GC.set_boat ?b ?x)))
          with (GC.deref r x).
        rewrite deref_modify, decide_True, Hd by reflexivity. simpl. eauto.
  - assert (Hnin : r ∉ Boat.passengers (GC.boat c)).
    { intros Hin. destruct (GC.inv_pass c HI r Hin) as (ch0 & Hd0 & Hb0 & _).
      congruence. }
    destruct (decide (Character.side ch = GC.side_of (GameState.boat (GC.state c))
                      /\ (length (Boat.passengers (GC.boat c)) < 2)%nat))
      as [[Hs Hl]|Hn].
    + pose proof (click_board c r ch Hm Hd Hb Hs Hl) as Hc'.
      eexists. split; [exact Hc'|].
      destruct (click_frame c _ r Hc') as (Hst & Hn & Hscr & _).
      split; [exact Hst|]. split; [exact Hn|]. split; [exact Hscr|].
      split; [|split; [|split]]; try contradiction.
      * intros r' Hne.
        change (GC.deref r' (GC.set_selected_characters ?a (GC.set_boat ?b ?x)))
          with (GC.deref r' x).
        rewrite deref_modify, decide_False by congruence. reflexivity.
      * intros _ _ _. split; [reflexivity|].
        change (GC.deref r (GC.set_selected_characters ?a (GC.set_boat ?b ?x)))
          with (GC.deref r x).
        rewrite deref_modify, decide_True, Hd by reflexivity. simpl. eauto.
      * intros _ Hn'. exfalso. apply Hn'. auto.
    + exists c. split; [apply (click_ignored c r ch Hd Hb Hn)|].
      split; [reflexivity|]. split; [reflexivity|]. split; [reflexivity|].
      split; [intros; reflexivity|]. split; [contradiction|].
      split; [|intros; reflexivity]. intros _ Hs Hl. exfalso. apply Hn. auto.
Qed.

Lemma handle_character_click_toggles_witness :
  GC.reachable (GC.boarded [CRef 0])
  /\ Boat.is_moving (GC.boat (GC.boarded [CRef 0])) = false
  /\ GC.deref (CRef 0) (GC.boarded [CRef 0])
     = Some (Character.mk "cannibal" 0 "left" true true false)
  /\ exists c',
       GC.handle_character_click (CRef 0) (GC.boarded [CRef 0]) = Ok c'
       /\ GC.state c' = GameState.mk 3 3 LEFT.
Proof.
  split; [apply reachable_boarded|]. split; [reflexivity|].
  split; [reflexivity|].
  destruct (handle_character_click_toggles (GC.boarded [CRef 0]) (CRef 0)
              (Character.mk "cannibal" 0 "left" true true false)
              (reachable_boarded [CRef 0]) eq_refl eq_refl)
    as (c' & Hc' & Hs & _).
  exists c'. split; [exact Hc' | exact Hs].
Defined.

(** C10: in every state reachable from [reset_game] by clicks, crossings,
    resets and frames, the left-bank counts of the configuration lie in 0..3,
    and so do the right-bank counts [3 - left]. *)
Theorem reachable_counts_in_range (c : GC.t) :
  GC.reachable c ->
  0 <= GameState.missionaries_left (GC.state c) <= 3
  /\ 0 <= GameState.cannibals_left (GC.state c) <= 3
  /\ 0 <= GameState.missionaries_right (GC.state c) <= 3
  /\ 0 <= GameState.cannibals_right (GC.state c) <= 3.
Proof.
  intros Hreach. destruct (reachable_Inv c Hreach) as [Lm Lc _ Cm Cc _ _ _ _ _].
  pose proof (count_side_bounds "left" (GC.missionaries c)) as Hm.
  pose proof (count_side_bounds "left" (GC.cannibals c)) as Hc.
  unfold GameState.missionaries_right, GameState.cannibals_right.
  rewrite Cm, Cc. lia.
Qed.

Lemma reachable_counts_in_range_witness :
  GC.reachable (GC.try_cross_river (GC.boarded [CRef 0; CRef 1]))
  /\ GC.state (GC.try_cross_river (GC.boarded [CRef 0; CRef 1]))
     = GameState.mk 3 1 RIGHT
  /\ 0 <= GameState.cannibals_left
            (GC.state (GC.try_cross_river (GC.boarded [CRef 0; CRef 1]))) <= 3.
Proof.
  assert (H : GC.reachable (GC.try_cross_river (GC.boarded [CRef 0; CRef 1]))).
  { eapply GC.reachable_step; [apply reachable_boarded | apply GC.step_cross]. }
  split; [exact H|]. split; [reflexivity|].
  apply (reachable_counts_in_range _ H).
Defined.

(** * Further properties of the code *)

(** ** is_valid and finish_crossing *)

(** X1: [is_valid] never answers [True].  It answers [False] exactly when a
    count is outside 0..3 or the left bank has missionaries > 0 and
    cannibals > missionaries, and raises TypeError on every other
    configuration. *)
Theorem is_valid_outcomes (s : GameState.t) :
  GameState.is_valid s <> Ok true
  /\ (GameState.is_valid s = Ok false <->
      ~ GameState.spec_in_range s
      \/ GameState.spec_bank_unsafe (GameState.missionaries_left s)
                                    (GameState.cannibals_left s))
  /\ (GameState.is_valid s = Raise TypeError <->
      GameState.spec_in_range s
      /\ ~ GameState.spec_bank_unsafe (GameState.missionaries_left s)
                                      (GameState.cannibals_left s))
  /\ GameState.is_valid s <> Raise ValueError.
Proof.
  split; [apply is_valid_never_true|].
  split; [apply is_valid_false_iff|].
  split; [apply is_valid_raises_iff|].
  rewrite is_valid_cases. repeat case_bool_decide; discriminate.
Qed.

Lemma is_goal_true_iff (s : GameState.t) :
  GameState.is_goal s = true <-> s = GameState.mk 0 0 RIGHT.
Proof.
  destruct s as [m k b]. unfold GameState.is_goal; simpl.
  repeat case_bool_decide; simpl; split; intros ?; simplify_eq; try done.
Qed.

Lemma disembark_boat (c : GC.t) :
  Boat.passengers (GC.boat (GC.disembark c)) = []
  /\ GC.selected_characters (GC.disembark c) = []
  /\ Boat.is_moving (GC.boat (GC.disembark c)) = Boat.is_moving (GC.boat c)
  /\ Boat.x (GC.boat (GC.disembark c)) = Boat.x (GC.boat c).
Proof.
  unfold GC.disembark.
  destruct (foldl_modify_frame (Character.set_boarded false)
              (Boat.passengers (GC.boat c)) c)
    as (_ & _ & _ & _ & _ & Hb & _).
  simpl. rewrite Hb. auto.
Qed.

Lemma finish_crossing_cases (c : GC.t) :
  (GC.finish_crossing c = Raise TypeError <->
   GC.state c <> GameState.mk 0 0 RIGHT
   /\ GameState.spec_in_range (GC.state c)
   /\ ~ GameState.spec_bank_unsafe (GameState.missionaries_left (GC.state c))
                                   (GameState.cannibals_left (GC.state c)))
  /\ GC.finish_crossing c <> Raise ValueError
  /\ forall c',
       GC.finish_crossing c = Ok c' ->
       GC.state c' = GC.state c
       /\ GC.move_count c' = GC.move_count c
       /\ Boat.passengers (GC.boat c') = []
       /\ GC.selected_characters c' = []
       /\ (if decide (GC.state c = GameState.mk 0 0 RIGHT)
           then GC.current_screen c' = WON
           else GC.current_screen c' = EATING
                /\ GC.eating_timer c' = 0%float).
Proof.
  destruct (disembark_state c) as (Hs & Hn & _).
  destruct (disembark_boat c) as (Hp & Hsel & _).
  unfold GC.finish_crossing. rewrite Hs.
  destruct (GameState.is_goal (GC.state c)) eqn:Hg.
  - apply is_goal_true_iff in Hg.
    split; [split; [discriminate | intros [? _]; contradiction]|].
    split; [discriminate|].
    intros c' [= <-]. rewrite decide_True by assumption. simpl. auto.
  - assert (Hng : GC.state c <> GameState.mk 0 0 RIGHT).
    { intros E. apply is_goal_true_iff in E. congruence. }
    destruct (GameState.is_valid (GC.state c)) as [[|]|[|]] eqn:Hv.
    + exfalso. exact (is_valid_never_true _ Hv).
    + apply is_valid_false_iff in Hv. simpl.
      split; [split; [discriminate | intros (_ & ? & ?); tauto]|].
      split; [discriminate|].
      intros c' [= <-]. rewrite decide_False by assumption. simpl. auto 10.
    + apply is_valid_raises_iff in Hv. simpl.
      split; [split; [tauto | reflexivity]|].
      split; [discriminate|]. discriminate.
    + exfalso. rewrite is_valid_cases in Hv.
      repeat case_bool_decide; discriminate.
Qed.

(** X2: the three outcomes of [finish_crossing].  It raises exactly when
    the configuration is not the goal, is in range and has a safe left bank,
    and then the error is TypeError.  When it returns, the configuration and
    the move counter are as before, nobody is aboard or selected, and the
    screen is WON if the configuration is the goal (0,0,RIGHT) and EATING with
    the timer at 0 otherwise. *)
Theorem finish_crossing_outcomes (c : GC.t) :
  (GC.finish_crossing c = Raise TypeError <->
   GC.state c <> GameState.mk 0 0 RIGHT
   /\ GameState.spec_in_range (GC.state c)
   /\ ~ GameState.spec_bank_unsafe (GameState.missionaries_left (GC.state c))
                                   (GameState.cannibals_left (GC.state c)))
  /\ GC.finish_crossing c <> Raise ValueError
  /\ forall c',
       GC.finish_crossing c = Ok c' ->
       GC.state c' = GC.state c
       /\ GC.move_count c' = GC.move_count c
       /\ Boat.passengers (GC.boat c') = []
       /\ GC.selected_characters c' = []
       /\ (if decide (GC.state c = GameState.mk 0 0 RIGHT)
           then GC.current_screen c' = WON
           else GC.current_screen c' = EATING
                /\ GC.eating_timer c' = 0%float).
Proof. exact (finish_crossing_cases c). Qed.

(** ** Boat.update *)

Lemma boat_update_far (b : Boat.t) :
  Z.abs (Boat.target_x b - Boat.x b) > 2 ->
  Boat.update b
  = Boat.mk (Boat.x b + (if bool_decide (0 <= Boat.target_x b - Boat.x b)
                         then BOAT_SPEED else - BOAT_SPEED))
            (Boat.target_x b) true (Boat.passengers b).
Proof. intros H. unfold Boat.update. rewrite bool_decide_eq_true_2; done. Qed.

Lemma boat_update_near (b : Boat.t) :
  Z.abs (Boat.target_x b - Boat.x b) <= 2 ->
  Boat.update b
  = Boat.mk (Boat.target_x b) (Boat.target_x b) false (Boat.passengers b).
Proof.
  intros H. unfold Boat.update. rewrite bool_decide_eq_false_2; [done|lia].
Qed.

Lemma boat_update_step (b : Boat.t) :
  Boat.target_x (Boat.update b) = Boat.target_x b
  /\ Boat.passengers (Boat.update b) = Boat.passengers b
  /\ Z.abs (Boat.target_x b - Boat.x (Boat.update b))
     = (if bool_decide (Z.abs (Boat.target_x b - Boat.x b) > 2)
        then Z.abs (Boat.target_x b - Boat.x b) - BOAT_SPEED
        else 0)
  /\ Boat.is_moving (Boat.update b)
     = bool_decide (Z.abs (Boat.target_x b - Boat.x b) > 2)
  /\ (Boat.is_moving (Boat.update b) = false ->
      Boat.x (Boat.update b) = Boat.target_x b).
Proof.
  unfold Boat.update, BOAT_SPEED.
  case_bool_decide as Hd; simpl; repeat split; try discriminate;
    try case_bool_decide; lia.
Qed.

Lemma boat_at_rest_fixed (t : Z) (p : list CharRef) (n : nat) :
  Nat.iter n Boat.update (Boat.mk t t false p) = Boat.mk t t false p.
Proof.
  induction n as [|n IH]; [reflexivity|]. simpl. rewrite IH.
  unfold Boat.update; simpl. rewrite Z.sub_diag. reflexivity.
Qed.

Local Ltac div3_facts e :=
  pose proof (Z.div_mod e 3 ltac:(lia));
  pose proof (Z.mod_pos_bound e 3 ltac:(lia)).

Lemma boat_updates_arrive_aux (n : nat) :
  forall b : Boat.t,
    Z.to_nat (Z.abs (Boat.target_x b - Boat.x b) / 3) = n ->
    (forall j, (j <= n)%nat ->
       Boat.x (Nat.iter j Boat.update b)
       = Boat.x b + Z.sgn (Boat.target_x b - Boat.x b) * (3 * Z.of_nat j)
       /\ Boat.target_x (Nat.iter j Boat.update b) = Boat.target_x b
       /\ Boat.passengers (Nat.iter j Boat.update b) = Boat.passengers b
       /\ ((1 <= j)%nat -> Boat.is_moving (Nat.iter j Boat.update b) = true))
    /\ (forall m, (n < m)%nat ->
          Nat.iter m Boat.update b
          = Boat.mk (Boat.target_x b) (Boat.target_x b) false (Boat.passengers b)).
Proof.
  induction n as [|n IH]; intros b Hn.
  - assert (Hd : Z.abs (Boat.target_x b - Boat.x b) <= 2).
    { div3_facts (Z.abs (Boat.target_x b - Boat.x b)). lia. }
    split.
    + intros j Hj. assert (j = 0%nat) as -> by lia. simpl.
      repeat split; try lia.
    + intros m Hm. destruct m as [|m]; [lia|].
      rewrite Nat.iter_succ_r, boat_update_near by assumption.
      apply boat_at_rest_fixed.
  - assert (Hd : Z.abs (Boat.target_x b - Boat.x b) > 2).
    { div3_facts (Z.abs (Boat.target_x b - Boat.x b)). lia. }
    pose proof (boat_update_far b Hd) as Hu.
    set (b1 := Boat.update b) in *.
    assert (Hx1 : Boat.x b1 = Boat.x b + Z.sgn (Boat.target_x b - Boat.x b) * 3).
    { rewrite Hu. unfold BOAT_SPEED. simpl. case_bool_decide; lia. }
    assert (Ht1 : Boat.target_x b1 = Boat.target_x b) by (rewrite Hu; reflexivity).
    assert (Hp1 : Boat.passengers b1 = Boat.passengers b) by (rewrite Hu; reflexivity).
    assert (Hsg : Z.sgn (Boat.target_x b1 - Boat.x b1)
                  = Z.sgn (Boat.target_x b - Boat.x b)
                  \/ Boat.target_x b1 - Boat.x b1 = 0) by lia.
    assert (Hn1 : Z.to_nat (Z.abs (Boat.target_x b1 - Boat.x b1) / 3) = n).
    { assert (Z.abs (Boat.target_x b1 - Boat.x b1)
              = Z.abs (Boat.target_x b - Boat.x b) - 3) as -> by lia.
      div3_facts (Z.abs (Boat.target_x b - Boat.x b)).
      div3_facts (Z.abs (Boat.target_x b - Boat.x b) - 3). lia. }
    destruct (IH b1 Hn1) as [IHj IHm].
    split.
    + intros j Hj. destruct j as [|j].
      * simpl. repeat split; lia.
      * rewrite Nat.iter_succ_r. fold b1.
        destruct (IHj j ltac:(lia)) as (Hx & Ht & Hp & Hmv).
        split; [|split; [congruence|split; [congruence|]]].
        -- rewrite Hx. destruct Hsg as [->|E].
           ++ rewrite Hx1, Nat2Z.inj_succ. ring.
           ++ destruct j as [|j].
              ** rewrite Hx1. simpl. ring.
              ** exfalso. rewrite E in Hn1.
                 assert (n = 0%nat) by (symmetry; exact Hn1). lia.
        -- intros _. destruct j as [|j]; [|apply Hmv; lia].
           simpl. fold b1. rewrite Hu. reflexivity.
    + intros m Hm. destruct m as [|m]; [lia|].
      rewrite Nat.iter_succ_r. fold b1.
      rewrite IHm by lia. rewrite Ht1, Hp1. reflexivity.
Qed.

(** ** update while the boat sails *)

Lemma update_sailing (c : GC.t) dt :
  GC.current_screen c = PLAYING ->
  Z.abs (Boat.target_x (GC.boat c) - Boat.x (GC.boat c)) > 2 ->
  GC.update dt c = Ok (GC.set_boat (Boat.update (GC.boat c)) c).
Proof.
  intros Hs Hd. unfold GC.update. rewrite Hs.
  destruct (decide (PLAYING = EATING)) as [?|_]; [discriminate|].
  destruct (decide (PLAYING <> PLAYING)) as [?|_]; [congruence|].
  cbn [GC.boat GC.set_boat]. rewrite boat_update_far by assumption.
  cbn [Boat.is_moving negb]. rewrite andb_false_r. reflexivity.
Qed.

Lemma update_arriving (c : GC.t) dt :
  GC.current_screen c = PLAYING ->
  Boat.is_moving (GC.boat c) = true ->
  Z.abs (Boat.target_x (GC.boat c) - Boat.x (GC.boat c)) <= 2 ->
  GC.update dt c = GC.finish_crossing (GC.set_boat (Boat.update (GC.boat c)) c).
Proof.
  intros Hs Hm Hd. unfold GC.update. rewrite Hs, Hm.
  destruct (decide (PLAYING = EATING)) as [?|_]; [discriminate|].
  destruct (decide (PLAYING <> PLAYING)) as [?|_]; [congruence|].
  cbn [GC.boat GC.set_boat]. rewrite boat_update_near by assumption.
  reflexivity.
Qed.

Lemma boat_frames_left (b : Boat.t) :
  Z.abs (Boat.target_x b - Boat.x b) > 2 ->
  S (Z.to_nat (Z.abs (Boat.target_x (Boat.update b) - Boat.x (Boat.update b)) / 3))
  = Z.to_nat (Z.abs (Boat.target_x b - Boat.x b) / 3).
Proof.
  intros Hd. destruct (boat_update_step b) as (Ht & _ & Ha & _).
  rewrite Ht, Ha, bool_decide_eq_true_2 by assumption. unfold BOAT_SPEED.
  div3_facts (Z.abs (Boat.target_x b - Boat.x b)).
  div3_facts (Z.abs (Boat.target_x b - Boat.x b) - 3). lia.
Qed.

Lemma result_bind_ret {A} (m : result A) : (m ≫= Ok) = m.
Proof. destruct m; reflexivity. Qed.

Lemma run_updates_sailing (n : nat) dt :
  forall c : GC.t,
    GC.current_screen c = PLAYING ->
    (n <= Z.to_nat (Z.abs (Boat.target_x (GC.boat c) - Boat.x (GC.boat c)) / 3))%nat ->
    GC.run_updates n dt c
    = Ok (GC.set_boat (Nat.iter n Boat.update (GC.boat c)) c).
Proof.
  induction n as [|n IH]; intros c Hs Hn.
  - destruct c as [g s m scr t ms cs [x tx mv p] sel]. reflexivity.
  - assert (Hd : Z.abs (Boat.target_x (GC.boat c) - Boat.x (GC.boat c)) > 2).
    { div3_facts (Z.abs (Boat.target_x (GC.boat c) - Boat.x (GC.boat c))). lia. }
    cbn [GC.run_updates]. rewrite update_sailing by assumption.
    cbn [mbind result_bind]. rewrite IH.
    + rewrite Nat.iter_succ_r. reflexivity.
    + exact Hs.
    + cbn [GC.boat GC.set_boat].
      pose proof (boat_frames_left (GC.boat c) Hd). lia.
Qed.

(** The frames of a crossing: [d / 3] calls of [update] that only move the
    boat, then the call that runs [finish_crossing]. *)
Lemma run_updates_arrival (c : GC.t) (dt : float) :
  GC.current_screen c = PLAYING ->
  Boat.is_moving (GC.boat c) = true ->
  GC.run_updates
    (Z.to_nat (Z.abs (Boat.target_x (GC.boat c) - Boat.x (GC.boat c)) / 3)) dt c
  = Ok (GC.set_boat
          (Nat.iter
             (Z.to_nat (Z.abs (Boat.target_x (GC.boat c) - Boat.x (GC.boat c)) / 3))
             Boat.update (GC.boat c))
          c)
  /\ GC.run_updates
       (S (Z.to_nat (Z.abs (Boat.target_x (GC.boat c) - Boat.x (GC.boat c)) / 3)))
       dt c
     = GC.finish_crossing
         (GC.set_boat
            (Boat.mk (Boat.target_x (GC.boat c)) (Boat.target_x (GC.boat c))
                     false (Boat.passengers (GC.boat c)))
            c).
Proof.
  intros Hs Hm.
  set (n := Z.to_nat (Z.abs (Boat.target_x (GC.boat c) - Boat.x (GC.boat c)) / 3)).
  split; [apply run_updates_sailing; [assumption|lia]|].
  revert c Hs Hm n. 
  assert (H : forall k (c : GC.t),
             GC.current_screen c = PLAYING ->
             Boat.is_moving (GC.boat c) = true ->
             Z.to_nat (Z.abs (Boat.target_x (GC.boat c) - Boat.x (GC.boat c)) / 3) = k ->
             GC.run_updates (S k) dt c
             = GC.finish_crossing
                 (GC.set_boat
                    (Boat.mk (Boat.target_x (GC.boat c)) (Boat.target_x (GC.boat c))
                             false (Boat.passengers (GC.boat c))) c)).
  { induction k as [|k IH]; intros c Hs Hm Hk.
    - assert (Hd : Z.abs (Boat.target_x (GC.boat c) - Boat.x (GC.boat c)) <= 2).
      { div3_facts (Z.abs (Boat.target_x (GC.boat c) - Boat.x (GC.boat c))). lia. }
      cbn [GC.run_updates]. rewrite update_arriving by assumption.
      rewrite boat_update_near by assumption. apply result_bind_ret.
    - assert (Hd : Z.abs (Boat.target_x (GC.boat c) - Boat.x (GC.boat c)) > 2).
      { div3_facts (Z.abs (Boat.target_x (GC.boat c) - Boat.x (GC.boat c))). lia. }
      change (GC.run_updates (S (S k)) dt c)
        with (GC.update dt c ≫= GC.run_updates (S k) dt).
      rewrite update_sailing by assumption. cbn [mbind result_bind].
      destruct (boat_update_step (GC.boat c)) as (Ht & Hp & _ & Hmv & _).
      rewrite bool_decide_eq_true_2 in Hmv by assumption.
      rewrite IH; cbn [GC.boat GC.set_boat GC.current_screen].
      + rewrite Ht, Hp.
        destruct c as [g s m scr t ms cs b sel]. reflexivity.
      + exact Hs.
      + exact Hmv.
      + pose proof (boat_frames_left (GC.boat c) Hd). lia. }
  intros c Hs Hm n. apply H; auto.
Qed.

(** X6: [try_cross_river] never commits twice in a row: called again before
    the boat has arrived it changes nothing. *)
Theorem try_cross_river_twice (c : GC.t) :
  GC.try_cross_river (GC.try_cross_river c) = GC.try_cross_river c.
Proof.
  destruct (Boat.is_moving (GC.boat c)) eqn:Hm.
  { rewrite !(try_cross_river_idle c) by auto. reflexivity. }
  destruct (decide (Boat.passengers (GC.boat c) = [])) as [Hp|Hp].
  { rewrite !(try_cross_river_idle c) by auto. reflexivity. }
  destruct (try_cross_river_fields c Hm Hp) as (_ & _ & _ & Hmv & _).
  apply try_cross_river_idle. auto.
Qed.

(** ** Characters of reachable controllers *)

Lemma wf_transfer (c c' : GC.t) :
  well_formed_characters c ->
  (forall r ch', GC.deref r c' = Some ch' ->
     exists ch, GC.deref r c = Some ch
                /\ (Character.side ch' = "left" \/ Character.side ch' = "right")
                /\ Character.selected ch' = Character.in_boat ch'
                /\ Character.index ch' = Character.index ch) ->
  well_formed_characters c'.
Proof.
  intros Hwf H r ch' E. destruct (H r ch' E) as (ch & E0 & Hs & Hb & Hi).
  destruct (Hwf r ch E0) as (_ & _ & Hidx). rewrite Hi. auto.
Qed.

Lemma wf_same (c c' : GC.t) :
  well_formed_characters c ->
  GC.missionaries c' = GC.missionaries c ->
  GC.cannibals c' = GC.cannibals c ->
  well_formed_characters c'.
Proof.
  intros Hwf Hm Hc r ch E. apply (Hwf r ch).
  destruct r; simpl in *; congruence.
Qed.

Lemma wf_fresh (g : StateGraph) : well_formed_characters (GC.fresh g).
Proof.
  intros [[|[|[|i]]]|[|[|[|i]]]] ch E; simpl in E; simplify_eq; simpl; auto.
Qed.

Lemma side_of_left_or_right b :
  GC.side_of b = "left" \/ GC.side_of b = "right".
Proof. destruct b; auto. Qed.

Lemma wf_modify f r (c : GC.t) :
  well_formed_characters c ->
  (forall ch, GC.deref r c = Some ch ->
     (Character.side (f ch) = "left" \/ Character.side (f ch) = "right")
     /\ Character.selected (f ch) = Character.in_boat (f ch)
     /\ Character.index (f ch) = Character.index ch) ->
  well_formed_characters (GC.modify f r c).
Proof.
  intros Hwf Hf. apply (wf_transfer c); [assumption|].
  intros r0 ch'. rewrite deref_modify.
  destruct (decide (r = r0)) as [<-|Hne].
  - destruct (GC.deref r c) as [ch|] eqn:E; [|discriminate].
    simpl. intros [= <-]. exists ch. split; [reflexivity|]. apply Hf, eq_refl.
  - intros E. exists ch'. split; [assumption|].
    destruct (Hwf r0 ch' E) as (? & ? & _). auto.
Qed.

Lemma wf_click (c c' : GC.t) r :
  well_formed_characters c ->
  GC.handle_character_click r c = Ok c' ->
  well_formed_characters c'.
Proof.
  intros Hwf. unfold GC.handle_character_click.
  destruct (Boat.is_moving (GC.boat c)); [intros [= <-]; assumption|].
  destruct (GC.deref r c) as [ch|] eqn:Hd; [|intros [= <-]; assumption].
  destruct (Hwf r ch Hd) as (Hs & Hsel & Hi).
  destruct (Character.in_boat ch).
  - match goal with
    | |- context [GC.modify ?f r c] =>
        assert (Hw1 : well_formed_characters (GC.modify f r c))
    end.
    { apply wf_modify; [assumption|]. intros ch0 _. simpl.
      split; [apply side_of_left_or_right | auto]. }
    revert Hw1.
    match goal with
    | |- context [GC.modify ?f r c] => generalize (GC.modify f r c)
    end.
    intros c1 Hw1.
    destruct (remove r (Boat.passengers (GC.boat c1))) as [p|]; [|discriminate].
    cbn [mbind result_bind].
    destruct (remove r _) as [q|]; [|discriminate].
    cbn [mbind result_bind]. intros [= <-].
    eapply wf_same; [exact Hw1|reflexivity|reflexivity].
  - destruct (_ && _); [|intros [= <-]; assumption].
    intros [= <-].
    eapply wf_same; [|reflexivity|reflexivity].
    apply wf_modify; [assumption|]. intros ch0 E0. simpl.
    destruct (Hwf r ch0 E0) as (? & _ & _). auto.
Qed.

Lemma wf_foldl_modify f (p : list CharRef) (c : GC.t) :
  (forall ch,
     (Character.side ch = "left" \/ Character.side ch = "right") ->
     Character.selected ch = Character.in_boat ch ->
     (Character.side (f ch) = "left" \/ Character.side (f ch) = "right")
     /\ Character.selected (f ch) = Character.in_boat (f ch)
     /\ Character.index (f ch) = Character.index ch) ->
  well_formed_characters c ->
  well_formed_characters (foldl (fun s r => GC.modify f r s) c p).
Proof.
  intros Hf. revert c. induction p as [|r p IH]; intros c Hwf; [exact Hwf|].
  simpl. apply IH. apply wf_modify; [assumption|].
  intros ch E. destruct (Hwf r ch E) as (? & ? & _). auto.
Qed.

Lemma wf_try_cross_river (c : GC.t) :
  well_formed_characters c -> well_formed_characters (GC.try_cross_river c).
Proof.
  intros Hwf.
  destruct (Boat.is_moving (GC.boat c)) eqn:Hm.
  { rewrite try_cross_river_idle by auto. exact Hwf. }
  destruct (decide (Boat.passengers (GC.boat c) = [])) as [Hp|Hp].
  { rewrite try_cross_river_idle by auto. exact Hwf. }
  rewrite (try_cross_river_unfold c Hm Hp). cbv zeta.
  apply wf_foldl_modify.
  - intros ch _ Hsel. simpl. split; [apply side_of_left_or_right | auto].
  - eapply wf_same; [exact Hwf|reflexivity|reflexivity].
Qed.

Lemma wf_disembark (c : GC.t) :
  well_formed_characters c -> well_formed_characters (GC.disembark c).
Proof.
  intros Hwf. unfold GC.disembark.
  eapply wf_same; [|reflexivity|reflexivity].
  apply wf_foldl_modify; [|assumption]. intros ch Hs _. simpl. auto.
Qed.

Lemma wf_start_eating_animation (c : GC.t) :
  well_formed_characters c ->
  well_formed_characters (GC.start_eating_animation c).
Proof.
  intros Hwf. apply (wf_transfer c); [assumption|].
  intros [i|i] ch'.
  - simpl. rewrite list_lookup_fmap.
    destruct (GC.missionaries c !! i) as [ch|] eqn:E; [|discriminate].
    simpl. intros [= <-]. exists ch. split; [reflexivity|].
    destruct (Hwf (MRef i) ch E) as (? & ? & _).
    destruct (bool_decide _); simpl; auto.
  - simpl. intros E. exists ch'. split; [assumption|].
    destruct (Hwf (CRef i) ch' E) as (? & ? & _). auto.
Qed.

Lemma wf_finish_crossing (c c' : GC.t) :
  well_formed_characters c -> GC.finish_crossing c = Ok c' ->
  well_formed_characters c'.
Proof.
  intros Hwf. apply wf_disembark in Hwf. unfold GC.finish_crossing.
  destruct (GameState.is_goal _).
  - intros [= <-]. eapply wf_same; [exact Hwf|reflexivity|reflexivity].
  - destruct (GameState.is_valid _) as [[|]|]; simpl; try discriminate;
      intros [= <-]; [exact Hwf|].
    apply wf_start_eating_animation, Hwf.
Qed.

Lemma wf_update (c c' : GC.t) dt :
  well_formed_characters c -> GC.update dt c = Ok c' ->
  well_formed_characters c'.
Proof.
  intros Hwf. unfold GC.update.
  destruct (decide (GC.current_screen c = EATING)).
  { destruct (_ <=? _)%float; intros [= <-];
      (eapply wf_same; [exact Hwf|reflexivity|reflexivity]). }
  destruct (decide (GC.current_screen c <> PLAYING));
    [intros [= <-]; exact Hwf|].
  destruct (_ && _).
  - apply wf_finish_crossing. eapply wf_same; [exact Hwf|reflexivity|reflexivity].
  - intros [= <-]. eapply wf_same; [exact Hwf|reflexivity|reflexivity].
Qed.

Lemma reachable_wf (c : GC.t) : GC.reachable c -> well_formed_characters c.
Proof.
  induction 1 as [c|c c' _ IH Hstep]; [apply wf_fresh|].
  destruct Hstep.
  - apply wf_fresh.
  - eapply wf_click; eauto.
  - apply wf_try_cross_river, IH.
  - eapply wf_update; eauto.
Qed.

(** ** Boarding in reachable controllers *)

(** X7: in a reachable state every click on a character returns: the
    ValueError of [list.remove] cannot occur, whatever is clicked and
    whether or not the boat is moving. *)
Theorem click_never_raises (c : GC.t) (r : CharRef) :
  GC.reachable c ->
  exists c', GC.handle_character_click r c = Ok c'.
Proof.
  intros Hreach. pose proof (reachable_Inv c Hreach) as HI.
  destruct (Boat.is_moving (GC.boat c)) eqn:Hm.
  { exists c. apply click_moving, Hm. }
  destruct (GC.deref r c) as [ch|] eqn:Hd.
  2: { exists c. apply click_dangling, Hd. }
  destruct (Character.in_boat ch) eqn:Hb.
  - destruct (click_unboard c r ch HI Hm Hd Hb) as (p & _ & Hc'). eauto.
  - destruct (decide (Character.side ch = GC.side_of (GameState.boat (GC.state c))
                      /\ (length (Boat.passengers (GC.boat c)) < 2)%nat))
      as [[Hs Hl]|Hn].
    + eexists. apply (click_board c r ch Hm Hd Hb Hs Hl).
    + exists c. apply (click_ignored c r ch Hd Hb Hn).
Qed.

Lemma click_never_raises_witness :
  GC.reachable (GC.boarded [CRef 0; MRef 2])
  /\ exists c',
       GC.handle_character_click (CRef 0) (GC.boarded [CRef 0; MRef 2]) = Ok c'.
Proof.
  split; [apply reachable_boarded|].
  apply (click_never_raises _ _ (reachable_boarded [CRef 0; MRef 2])).
Defined.

(** X8: the boarding invariant.  In every reachable state at most two
    characters are aboard, no character is aboard twice, the selection is the
    passenger list, a character is flagged [in_boat] (and [selected]) exactly
    when it is a passenger, and every passenger's side is the bank the
    configuration places the boat on. *)
Theorem reachable_boarding_invariant (c : GC.t) :
  GC.reachable c ->
  (length (Boat.passengers (GC.boat c)) <= 2)%nat
  /\ NoDup (Boat.passengers (GC.boat c))
  /\ GC.selected_characters c = Boat.passengers (GC.boat c)
  /\ (forall r ch, GC.deref r c = Some ch ->
        (Character.in_boat ch = true <-> r ∈ Boat.passengers (GC.boat c))
        /\ Character.selected ch = Character.in_boat ch)
  /\ (forall r, r ∈ Boat.passengers (GC.boat c) ->
        exists ch, GC.deref r c = Some ch
                   /\ Character.side ch
                      = GC.side_of (GameState.boat (GC.state c))).
Proof.
  intros Hreach. pose proof (reachable_Inv c Hreach) as HI.
  pose proof (reachable_wf c Hreach) as Hwf.
  split; [apply HI|]. split; [apply HI|]. split; [apply HI|]. split.
  - intros r ch Hd. split; [|apply (Hwf r ch Hd)]. split.
    + apply (GC.inv_in_boat c HI r ch Hd).
    + intros Hin. destruct (GC.inv_pass c HI r Hin) as (ch0 & Hd0 & Hb & _).
      congruence.
  - intros r Hin. destruct (GC.inv_pass c HI r Hin) as (ch & Hd & _ & Hs). eauto.
Qed.

Lemma reachable_boarding_invariant_witness :
  GC.reachable (GC.boarded [CRef 0; MRef 2; MRef 1])
  /\ Boat.passengers (GC.boat (GC.boarded [CRef 0; MRef 2; MRef 1]))
     = [CRef 0; MRef 2]
  /\ (length (Boat.passengers (GC.boat (GC.boarded [CRef 0; MRef 2; MRef 1])))
      <= 2)%nat.
Proof.
  split; [apply reachable_boarded|]. split; [reflexivity|].
  apply (reachable_boarding_invariant _ (reachable_boarded [CRef 0; MRef 2; MRef 1])).
Defined.

Lemma on_side_left_right (o : option Character.t) :
  (forall ch, o = Some ch ->
     Character.side ch = "left" \/ Character.side ch = "right") ->
  GC.on_side "left" o + GC.on_side "right" o
  = match o with Some _ => 1 | None => 0 end.
Proof.
  destruct o as [ch|]; [|reflexivity]. intros H.
  destruct (H ch eq_refl) as [E|E]; simpl; rewrite E; reflexivity.
Qed.

Lemma count_side_left_right (c : GC.t) :
  GC.Inv c -> well_formed_characters c ->
  GC.count_side "left" (GC.missionaries c)
  + GC.count_side "right" (GC.missionaries c) = 3
  /\ GC.count_side "left" (GC.cannibals c)
     + GC.count_side "right" (GC.cannibals c) = 3.
Proof.
  intros HI Hwf.
  rewrite !count_side_3 by apply HI.
  assert (H : forall r, GC.on_side "left" (GC.deref r c)
                        + GC.on_side "right" (GC.deref r c)
                        = match GC.deref r c with Some _ => 1 | None => 0 end).
  { intros r. apply on_side_left_right. intros ch E. apply (Hwf r ch E). }
  assert (Hsome : forall r, (ref_index r < 3)%nat ->
                            match GC.deref r c with Some _ => 1 | None => 0 end = 1).
  { intros r Hr. destruct (GC.deref r c) eqn:E; [reflexivity|].
    exfalso. destruct r as [i|i]; simpl in *; apply lookup_ge_None in E.
    - rewrite (GC.inv_m_len c HI) in E. lia.
    - rewrite (GC.inv_c_len c HI) in E. lia. }
  pose proof (H (MRef 0)) as M0. pose proof (H (MRef 1)) as M1.
  pose proof (H (MRef 2)) as M2. pose proof (H (CRef 0)) as C0.
  pose proof (H (CRef 1)) as C1. pose proof (H (CRef 2)) as C2.
  rewrite Hsome in M0, M1, M2, C0, C1, C2 by (simpl; lia).
  simpl in M0, M1, M2, C0, C1, C2. lia.
Qed.

(** X9: the configuration agrees with the characters.  In every reachable
    state there are three missionaries and three cannibals, each of the type
    its list says, the left counts of the configuration are the numbers of
    them whose side is 'left', and the right counts ([3 - left]) the numbers
    whose side is 'right'. *)
Theorem reachable_counts_match_sides (c : GC.t) :
  GC.reachable c ->
  length (GC.missionaries c) = 3%nat
  /\ length (GC.cannibals c) = 3%nat
  /\ (forall ch, ch ∈ GC.missionaries c -> Character.char_type ch = "missionary")
  /\ (forall ch, ch ∈ GC.cannibals c -> Character.char_type ch = "cannibal")
  /\ GameState.missionaries_left (GC.state c)
     = GC.count_side "left" (GC.missionaries c)
  /\ GameState.missionaries_right (GC.state c)
     = GC.count_side "right" (GC.missionaries c)
  /\ GameState.cannibals_left (GC.state c)
     = GC.count_side "left" (GC.cannibals c)
  /\ GameState.cannibals_right (GC.state c)
     = GC.count_side "right" (GC.cannibals c).
Proof.
  intros Hreach. pose proof (reachable_Inv c Hreach) as HI.
  pose proof (reachable_wf c Hreach) as Hwf.
  destruct (count_side_left_right c HI Hwf) as [Hm Hc].
  split; [apply HI|]. split; [apply HI|]. split; [|split].
  - intros ch Hin. apply list_elem_of_lookup in Hin as [i Hi].
    apply (GC.inv_type c HI (MRef i) ch Hi).
  - intros ch Hin. apply list_elem_of_lookup in Hin as [i Hi].
    apply (GC.inv_type c HI (CRef i) ch Hi).
  - unfold GameState.missionaries_right, GameState.cannibals_right.
    rewrite (GC.inv_m_count c HI), (GC.inv_c_count c HI). lia.
Qed.

Lemma reachable_counts_match_sides_witness :
  GC.reachable (GC.try_cross_river (GC.boarded [CRef 0; MRef 2]))
  /\ GameState.missionaries_right
       (GC.state (GC.try_cross_river (GC.boarded [CRef 0; MRef 2])))
     = GC.count_side "right"
         (GC.missionaries (GC.try_cross_river (GC.boarded [CRef 0; MRef 2]))).
Proof.
  assert (H : GC.reachable (GC.try_cross_river (GC.boarded [CRef 0; MRef 2]))).
  { eapply GC.reachable_step; [apply reachable_boarded | apply GC.step_cross]. }
  split; [exact H|]. apply (reachable_counts_match_sides _ H).
Defined.

(** ** The tally of a crossing *)

Lemma count_if_partition {A} (p q : A -> bool) (l : list A) :
  (forall x, x ∈ l -> p x = negb (q x)) ->
  0 <= count_if p l /\ 0 <= count_if q l
  /\ count_if p l + count_if q l = Z.of_nat (length l).
Proof.
  induction l as [|a l IH]; intros H; simpl; [lia|].
  destruct IH as (? & ? & ?).
  { intros x Hx. apply H, list_elem_of_further, Hx. }
  rewrite (H a) by apply list_elem_of_here. destruct (q a); simpl; lia.
Qed.

Lemma tally_total (c : GC.t) :
  GC.Inv c ->
  0 <= GC.m_count c /\ 0 <= GC.c_count c
  /\ GC.m_count c + GC.c_count c
     = Z.of_nat (length (Boat.passengers (GC.boat c))).
Proof.
  intros HI. apply count_if_partition. intros r Hr.
  destruct (GC.inv_pass c HI r Hr) as (ch & Hd & _).
  unfold GC.has_type. rewrite Hd, (GC.inv_type c HI r ch Hd).
  destruct r; reflexivity.
Qed.

(** X10: whenever somebody is aboard in a reachable state, the tally
    [try_cross_river] takes is one of the five loads of [possible_moves],
    and the bank the boat is on holds at least that many missionaries and
    cannibals. *)
Theorem reachable_tally_is_boat_load (c : GC.t) :
  GC.reachable c ->
  Boat.passengers (GC.boat c) <> [] ->
  (GC.m_count c, GC.c_count c) ∈ possible_moves
  /\ match GameState.boat (GC.state c) with
     | LEFT => GC.m_count c <= GameState.missionaries_left (GC.state c)
               /\ GC.c_count c <= GameState.cannibals_left (GC.state c)
     | RIGHT => GC.m_count c <= GameState.missionaries_right (GC.state c)
                /\ GC.c_count c <= GameState.cannibals_right (GC.state c)
     end.
Proof.
  intros Hreach Hp. pose proof (reachable_Inv c Hreach) as HI.
  pose proof (reachable_wf c Hreach) as Hwf.
  destruct (tally_total c HI) as (Hm0 & Hc0 & Hsum).
  pose proof (GC.inv_pass_len c HI) as Hlen.
  assert (Hpos : (1 <= length (Boat.passengers (GC.boat c)))%nat).
  { destruct (Boat.passengers (GC.boat c)); [congruence | simpl; lia]. }
  split.
  - assert (Hcases : (GC.m_count c = 1 /\ GC.c_count c = 0)
                     \/ (GC.m_count c = 2 /\ GC.c_count c = 0)
                     \/ (GC.m_count c = 0 /\ GC.c_count c = 1)
                     \/ (GC.m_count c = 0 /\ GC.c_count c = 2)
                     \/ (GC.m_count c = 1 /\ GC.c_count c = 1)) by lia.
    unfold possible_moves.
    destruct Hcases as [[-> ->]|[[-> ->]|[[-> ->]|[[-> ->]|[-> ->]]]]];
      repeat first [apply list_elem_of_here | apply list_elem_of_further].
  - (* the passengers stand on the boat's bank *)
    assert (Hon : forall r,
               GC.aboard r (Boat.passengers (GC.boat c))
               <= GC.on_side (GC.side_of (GameState.boat (GC.state c)))
                             (GC.deref r c)).
    { intros r. unfold GC.aboard. case_bool_decide as Hin.
      - destruct (GC.inv_pass c HI r Hin) as (ch & -> & _ & Hs).
        simpl. rewrite bool_decide_eq_true_2 by assumption. lia.
      - destruct (GC.deref r c); simpl; [case_bool_decide|]; lia. }
    destruct (count_side_left_right c HI Hwf) as [Hlrm Hlrc].
    rewrite (m_count_aboard c HI), (c_count_aboard c HI).
    unfold GameState.missionaries_right, GameState.cannibals_right.
    rewrite (GC.inv_m_count c HI), (GC.inv_c_count c HI).
    pose proof (Hon (MRef 0)) as M0. pose proof (Hon (MRef 1)) as M1.
    pose proof (Hon (MRef 2)) as M2. pose proof (Hon (CRef 0)) as C0.
    pose proof (Hon (CRef 1)) as C1. pose proof (Hon (CRef 2)) as C2.
    pose proof (count_side_3 "left" _ (GC.inv_m_len c HI)) as L1.
    pose proof (count_side_3 "right" _ (GC.inv_m_len c HI)) as L2.
    pose proof (count_side_3 "left" _ (GC.inv_c_len c HI)) as L3.
    pose proof (count_side_3 "right" _ (GC.inv_c_len c HI)) as L4.
    simpl GC.deref in *.
    destruct (GameState.boat (GC.state c));
      [change (GC.side_of LEFT) with "left" in *
      |change (GC.side_of RIGHT) with "right" in *]; lia.
Qed.

Lemma reachable_tally_is_boat_load_witness :
  GC.reachable (GC.boarded [CRef 0; MRef 2])
  /\ Boat.passengers (GC.boat (GC.boarded [CRef 0; MRef 2])) <> []
  /\ (GC.m_count (GC.boarded [CRef 0; MRef 2]),
      GC.c_count (GC.boarded [CRef 0; MRef 2])) ∈ possible_moves.
Proof.
  split; [apply reachable_boarded|]. split; [discriminate|].
  apply (reachable_tally_is_boat_load (GC.boarded [CRef 0; MRef 2])
           (reachable_boarded [CRef 0; MRef 2])).
  discriminate.
Defined.

(** ** What a session can reach *)

Lemma bfa_fresh (g : StateGraph) : before_first_arrival (GC.fresh g).
Proof.
  split; [discriminate|]. split; [simpl; lia|]. split; [auto|].
  intros _. auto.
Qed.

Lemma bfa_step (c c' : GC.t) :
  GC.Inv c -> before_first_arrival c -> GC.step c c' ->
  before_first_arrival c'.
Proof.
  intros HI Hbfa Hstep. pose proof Hbfa as (Hnw & Hsum & Hrest & Hpl).
  destruct Hstep as [c|c r c' Hclick|c|c dt c' Hupd].
  - apply bfa_fresh.
  - destruct (click_frame c c' r Hclick) as (Hs & _ & Hscr & _ & Hmv & _).
    unfold before_first_arrival. rewrite Hs, Hscr, Hmv. exact Hbfa.
  - destruct (Boat.is_moving (GC.boat c)) eqn:Hm.
    { rewrite try_cross_river_idle by auto. exact Hbfa. }
    destruct (decide (Boat.passengers (GC.boat c) = [])) as [Hp|Hp].
    { rewrite try_cross_river_idle by auto. exact Hbfa. }
    destruct (try_cross_river_fields c Hm Hp) as (Hst & _ & Hscr & Hmv & _).
    destruct (tally_total c HI) as (Hm0 & Hc0 & Htot).
    pose proof (GC.inv_pass_len c HI) as Hlen.
    unfold before_first_arrival. rewrite Hscr, Hmv.
    split; [assumption|]. split; [|split; [discriminate|]].
    + rewrite Hst. destruct (Hrest eq_refl) as [E|E]; rewrite E; simpl; lia.
    + intros Hplay. destruct (Hpl Hplay) as [Hstart _].
      split; [discriminate|]. right. rewrite Hst, (Hstart eq_refl). reflexivity.
  - revert Hupd. unfold GC.update.
    destruct (decide (GC.current_screen c = EATING)) as [He|He].
    { destruct (_ <=? _)%float; intros [= <-];
        (split; [|split; [|split]]); simpl;
        first [discriminate | assumption | intros ?; congruence]. }
    destruct (decide (GC.current_screen c <> PLAYING)) as [Hn|Hn].
    { intros [= <-]. exact Hbfa. }
    assert (Hplay : GC.current_screen c = PLAYING)
      by (destruct (decide (GC.current_screen c = PLAYING));
          [assumption | contradiction]).
    destruct (Hpl Hplay) as [Hstart Hside].
    destruct (Boat.is_moving (GC.boat c)) eqn:Hm; cbn [andb].
    + destruct (negb _) eqn:Hm'.
      * (* the boat arrives: finish_crossing *)
        intros Hfin.
        destruct (finish_crossing_cases
                    (GC.set_boat (Boat.update (GC.boat c)) c))
          as (_ & _ & Hok).
        destruct (Hok c' Hfin) as (Hst & _ & _ & _ & Hscr).
        cbn [GC.state GC.set_boat] in Hscr, Hst.
        destruct (decide (GC.state c = GameState.mk 0 0 RIGHT)) as [E|_].
        { rewrite E in Hsum. simpl in Hsum. lia. }
        destruct Hscr as [Hscr _]. unfold before_first_arrival.
        rewrite Hscr, Hst.
        split; [discriminate|]. split; [assumption|].
        split; [auto|discriminate].
      * intros [= <-]. split; [exact Hnw|]. split; [exact Hsum|].
        apply negb_false_iff in Hm'. split.
        -- rewrite Hm'. discriminate.
        -- intros _. split; [rewrite Hm'; discriminate | exact Hside].
    + intros [= <-]. split; [exact Hnw|]. split; [exact Hsum|].
      split; [intros _; left; apply Hstart; reflexivity|].
      intros _. split; [intros _; apply Hstart; reflexivity | exact Hside].
Qed.

Lemma reachable_bfa (c : GC.t) : GC.reachable c -> before_first_arrival c.
Proof.
  induction 1 as [c|c c' Hc IH Hstep]; [apply bfa_fresh|].
  eapply bfa_step; eauto using reachable_Inv.
Qed.

(** X11: no state reachable from [reset_game] shows the WON screen or holds
    the goal configuration (at least four characters are always on the left
    bank), and a reachable state on the PLAYING screen with the boat at rest
    is still at the start configuration (3,3,LEFT): the first arrival of the
    boat either starts the eating animation or raises. *)
Theorem reachable_never_won (c : GC.t) :
  GC.reachable c ->
  GC.current_screen c <> WON
  /\ GameState.is_goal (GC.state c) = false
  /\ GameState.missionaries_left (GC.state c)
     + GameState.cannibals_left (GC.state c) >= 4
  /\ (GC.current_screen c = PLAYING ->
      Boat.is_moving (GC.boat c) = false ->
      GC.state c = GameState.mk 3 3 LEFT).
Proof.
  intros Hreach. destruct (reachable_bfa c Hreach) as (Hnw & Hsum & _ & Hpl).
  split; [exact Hnw|]. split; [|split; [exact Hsum|]].
  - destruct (GameState.is_goal (GC.state c)) eqn:Hg; [|reflexivity].
    apply is_goal_true_iff in Hg. rewrite Hg in Hsum. simpl in Hsum. lia.
  - intros Hplay. apply (Hpl Hplay).
Qed.

Lemma reachable_never_won_witness :
  GC.reachable (GC.try_cross_river (GC.boarded [CRef 0; CRef 1]))
  /\ GC.current_screen (GC.try_cross_river (GC.boarded [CRef 0; CRef 1])) <> WON.
Proof.
  assert (H : GC.reachable (GC.try_cross_river (GC.boarded [CRef 0; CRef 1]))).
  { eapply GC.reachable_step; [apply reachable_boarded | apply GC.step_cross]. }
  split; [exact H|]. apply (reachable_never_won _ H).
Defined.

(** X12: in a reachable state, whenever [finish_crossing] returns it has
    started the eating animation for the left bank: the screen is EATING,
    [losing_side] is 'left', and the missionaries marked as being eaten by
    this call are the ones whose side is 'left'.  The branch of
    [start_eating_animation] for the right bank is never taken. *)
Theorem reachable_finish_crossing_eats_left (c c' : GC.t) :
  GC.reachable c ->
  GC.finish_crossing c = Ok c' ->
  GC.current_screen c' = EATING
  /\ GC.losing_side (GC.state c') = Some "left"
  /\ GameState.spec_bank_unsafe (GameState.missionaries_left (GC.state c'))
                                (GameState.cannibals_left (GC.state c'))
  /\ (forall i m, GC.missionaries c' !! i = Some m ->
        Character.side m = "left" -> Character.being_eaten m = true).
Proof.
  intros Hreach Hfin.
  destruct (reachable_bfa c Hreach) as (_ & Hsum & _).
  pose proof (reachable_Inv c Hreach) as HI.
  assert (Hrange : GameState.spec_in_range (GC.state c)).
  { unfold GameState.spec_in_range.
    rewrite (GC.inv_m_count c HI), (GC.inv_c_count c HI).
    pose proof (count_side_bounds "left" (GC.missionaries c)).
    pose proof (count_side_bounds "left" (GC.cannibals c)).
    rewrite (GC.inv_m_len c HI) in *. rewrite (GC.inv_c_len c HI) in *. lia. }
  destruct (disembark_state c) as (Hs & _).
  revert Hfin. unfold GC.finish_crossing. rewrite Hs.
  destruct (GameState.is_goal (GC.state c)) eqn:Hg.
  { apply is_goal_true_iff in Hg. rewrite Hg in Hsum. simpl in Hsum. lia. }
  destruct (GameState.is_valid (GC.state c)) as [[|]|] eqn:Hv; simpl;
    try discriminate.
  { exfalso. exact (is_valid_never_true _ Hv). }
  intros [= <-].
  apply is_valid_false_iff in Hv as [Hv|Hv]; [contradiction|].
  assert (Hst : GC.state (GC.start_eating_animation (GC.disembark c)) = GC.state c)
    by (rewrite <- Hs; reflexivity).
  assert (Hside : GC.losing_side (GC.state c) = Some "left")
    by (apply losing_side_spec, Hv).
  split; [reflexivity|]. rewrite Hst. split; [exact Hside|]. split; [exact Hv|].
  intros i m Hi Hl.
  rewrite start_eating_animation_missionaries, Hs, Hside in Hi.
  rewrite list_lookup_fmap in Hi.
  destruct (GC.missionaries (GC.disembark c) !! i) as [m0|]; [|discriminate].
  simpl in Hi. case_bool_decide as Hd; simplify_eq; [reflexivity|].
  exfalso. apply Hd. rewrite Hl. reflexivity.
Qed.


Lemma reachable_finish_crossing_eats_left_witness :
  GC.reachable (GC.try_cross_river (GC.boarded [MRef 0]))
  /\ exists c',
       GC.finish_crossing (GC.try_cross_river (GC.boarded [MRef 0])) = Ok c'
       /\ GC.losing_side (GC.state c') = Some "left".
Proof.
  assert (H : GC.reachable (GC.try_cross_river (GC.boarded [MRef 0]))).
  { eapply GC.reachable_step; [apply reachable_boarded | apply GC.step_cross]. }
  assert (E : GC.finish_crossing (GC.try_cross_river (GC.boarded [MRef 0]))
              = Ok (GC.start_eating_animation
                      (GC.disembark (GC.try_cross_river (GC.boarded [MRef 0])))))
    by (vm_compute; reflexivity).
  split; [exact H|]. eexists. split; [exact E|].
  apply (reachable_finish_crossing_eats_left _ _ H E).
Defined.

(** ** Boarding and leaving again *)

Lemma remove_app_last {A} `{EqDecision A} (x : A) (l : list A) :
  x ∉ l -> remove x (l ++ [x]) = Ok l.
Proof.
  induction l as [|a l IH]; intros Hx; simpl.
  - rewrite decide_True by reflexivity. reflexivity.
  - rewrite decide_False by (intros ->; apply Hx, list_elem_of_here).
    rewrite IH by (intros Hin; apply Hx, list_elem_of_further, Hin).
    reflexivity.
Qed.

Lemma alter_alter_id {A} (f g : A -> A) (i : nat) (l : list A) :
  (forall x, l !! i = Some x -> g (f x) = x) ->
  alter g i (alter f i l) = l.
Proof.
  revert i. induction l as [|a l IH]; intros i H; [reflexivity|].
  destruct i as [|i]; simpl.
  - f_equal. apply H. reflexivity.
  - f_equal. apply IH. intros x Hx. apply H. exact Hx.
Qed.

(** X13: boarding is undone by a second click.  In a reachable state with
    the boat at rest, if clicking a character boards it, clicking it again
    gives back exactly the controller before the first click. *)
Theorem click_board_unboard_roundtrip (c : GC.t) (r : CharRef) (ch : Character.t) :
  GC.reachable c ->
  Boat.is_moving (GC.boat c) = false ->
  GC.deref r c = Some ch ->
  Character.in_boat ch = false ->
  Character.side ch = GC.side_of (GameState.boat (GC.state c)) ->
  (length (Boat.passengers (GC.boat c)) < 2)%nat ->
  (c1 ← GC.handle_character_click r c; GC.handle_character_click r c1) = Ok c.
Proof.
  intros Hreach Hm Hd Hb Hs Hl.
  pose proof (reachable_Inv c Hreach) as HI.
  pose proof (reachable_wf c Hreach) as Hwf.
  destruct (Hwf r ch Hd) as (_ & Hsel & _).
  assert (Hnin : r ∉ Boat.passengers (GC.boat c)).
  { intros Hin. destruct (GC.inv_pass c HI r Hin) as (ch0 & Hd0 & Hb0 & _).
    congruence. }
  pose proof (click_board c r ch Hm Hd Hb Hs Hl) as Hc1.
  rewrite Hc1. cbn [mbind result_bind].
  set (c1 := GC.set_selected_characters _ _) in *.
  assert (HI1 : GC.Inv c1) by (eapply Inv_click; eauto).
  assert (Hd1 : GC.deref r c1 = Some (Character.set_boarded true ch)).
  { unfold c1.
    change (GC.deref r (GC.set_selected_characters ?a (GC.set_boat ?b ?x)))
      with (GC.deref r x).
    rewrite deref_modify, decide_True, Hd by reflexivity. reflexivity. }
  assert (Hm1 : Boat.is_moving (GC.boat c1) = false).
  { destruct (click_frame c c1 r Hc1) as (_ & _ & _ & _ & -> & _). exact Hm. }
  destruct (click_unboard c1 r _ HI1 Hm1 Hd1 eq_refl) as (p & Hrm & Hc2).
  rewrite Hc2. f_equal.
  assert (Hp1 : Boat.passengers (GC.boat c1) = Boat.passengers (GC.boat c) ++ [r]).
  { unfold c1. destruct r; reflexivity. }
  rewrite Hp1, remove_app_last in Hrm by assumption. injection Hrm as <-.
  assert (Hst1 : GC.state c1 = GC.state c).
  { destruct (click_frame c c1 r Hc1) as (-> & _). reflexivity. }
  rewrite Hst1.
  assert (Hback : Character.set_side (GC.side_of (GameState.boat (GC.state c)))
                    (Character.set_boarded false (Character.set_boarded true ch))
                  = ch).
  { clear - Hb Hs Hsel. destruct ch as [ty ix sd sl ib be].
    cbn in Hb, Hs, Hsel. subst ib sl. rewrite <- Hs. reflexivity. }
  pose proof (GC.inv_selected c HI) as Hselc.
  subst c1. clear - Hd Hback Hselc.
  destruct c as [g s n scr t ms cs [x tx mv p] sel].
  destruct r as [i|i]; cbn in *; subst sel;
    unfold GC.set_selected_characters, GC.set_boat, GC.set_missionaries,
      GC.set_cannibals, Boat.set_passengers; cbn; f_equal;
    apply alter_alter_id; intros ch0 E; rewrite Hd in E; injection E as <-;
    exact Hback.
Qed.

Lemma click_board_unboard_roundtrip_witness :
  GC.reachable (GC.boarded [CRef 0])
  /\ GC.deref (MRef 1) (GC.boarded [CRef 0])
     = Some (Character.mk "missionary" 1 "left" false false false)
  /\ (c1 ← GC.handle_character_click (MRef 1) (GC.boarded [CRef 0]);
      GC.handle_character_click (MRef 1) c1)
     = Ok (GC.boarded [CRef 0]).
Proof.
  split; [apply reachable_boarded|]. split; [reflexivity|].
  apply (click_board_unboard_roundtrip (GC.boarded [CRef 0]) (MRef 1)
           (Character.mk "missionary" 1 "left" false false false)
           (reachable_boarded [CRef 0]) eq_refl eq_refl eq_refl eq_refl).
  simpl. lia.
Defined.

(** ** handle_event and the frames of run *)

Section EventFacts.

Variable boat_contains_point : GC.t -> Z * Z -> bool.
Variable char_contains_point : GC.t -> CharRef -> Z * Z -> bool.

Local Abbreviation handle := (handle_event boat_contains_point char_contains_point).
Local Abbreviation frame_of_run := (run_frame boat_contains_point char_contains_point).

(** What an event can do: nothing, a reset, a crossing attempt or a click. *)
Lemma handle_event_effect (e : Event) (c c' : GC.t) (b : bool) :
  handle e c = Ok (c', b) ->
  c' = c
  \/ c' = GC.reset_game c
  \/ (GC.current_screen c = PLAYING /\ c' = GC.try_cross_river c)
  \/ (GC.current_screen c = PLAYING
      /\ exists r, GC.handle_character_click r c = Ok c').
Proof.
  unfold handle_event. destruct e as [|key|button pos|].
  - intros [= <- <-]. auto.
  - repeat (case_bool_decide || case_decide); intros [= <- <-]; auto.
  - repeat (case_bool_decide || case_decide); try (intros [= <- <-]; auto).
    destruct (boat_contains_point c pos); [intros [= <- <-]; auto|].
    destruct (List.find _ _) as [r|]; [|intros [= <- <-]; auto].
    destruct (GC.handle_character_click r c) as [c1|] eqn:E; [|discriminate].
    cbn [mbind result_bind]. intros [= <- <-]. right. right. right. eauto.
  - intros [= <- <-]. auto.
Qed.

Lemma handle_event_flag (e : Event) (c c' : GC.t) (b : bool) :
  handle e c = Ok (c', b) ->
  b = match e with
      | QUIT | KEYDOWN K_ESCAPE | KEYDOWN K_q => false
      | _ => true
      end.
Proof.
  unfold handle_event. destruct e as [|key|button pos|].
  - intros [= <- <-]. reflexivity.
  - destruct key; simpl; repeat case_decide; intros [= <- <-]; reflexivity.
  - repeat (case_bool_decide || case_decide); try (intros [= <- <-]; reflexivity).
    destruct (boat_contains_point c pos); [intros [= <- <-]; reflexivity|].
    destruct (List.find _ _) as [r|]; [|intros [= <- <-]; reflexivity].
    destruct (GC.handle_character_click r c) as [c1|]; [|discriminate].
    cbn [mbind result_bind]. intros [= <- <-]. reflexivity.
  - intros [= <- <-]. reflexivity.
Qed.

Lemma handle_event_reachable (e : Event) (c c' : GC.t) (b : bool) :
  GC.reachable c -> handle e c = Ok (c', b) -> GC.reachable c'.
Proof.
  intros Hreach He. apply handle_event_effect in He
    as [->|[->|[[_ ->]|[_ [r Hr]]]]].
  - exact Hreach.
  - apply GC.reachable_reset.
  - eapply GC.reachable_step; [exact Hreach | apply GC.step_cross].
  - eapply GC.reachable_step; [exact Hreach | eapply GC.step_click, Hr].
Qed.

Lemma events_loop (events : list Event) :
  forall (c c' : GC.t) (running running' : bool),
    for_each events
      (fun event '(s, running) =>
         '(s', continue) ← handle event s;
         Ok (s', if continue : bool then running else false))
      (c, running) = Ok (c', running') ->
    (GC.reachable c -> GC.reachable c')
    /\ running'
       = (running
          && forallb (fun e => match e with
                               | QUIT | KEYDOWN K_ESCAPE | KEYDOWN K_q => false
                               | _ => true
                               end) events)
    /\ ((forall e, e ∈ events -> e <> KEYDOWN K_r) ->
        GC.current_screen c <> PLAYING -> GC.current_screen c <> WELCOME ->
        c' = c).
Proof.
  induction events as [|e events IH]; intros c c' running running' H.
  - simpl in H. revert H. intros [= <- <-]. rewrite andb_true_r. auto.
  - cbn [for_each] in H.
    destruct (handle e c) as [[c1 b]|] eqn:He; [|discriminate].
    cbn [mbind result_bind] in H.
    destruct (IH _ _ _ _ H) as (IHr & IHf & IHs).
    split; [|split].
    + intros Hreach. apply IHr. eapply handle_event_reachable; eauto.
    + rewrite IHf, (handle_event_flag e c c1 b He). cbn [forallb].
      destruct e as [|[]| |]; destruct running; reflexivity.
    + intros Hr Hp Hw.
      assert (c1 = c) as ->.
      { pose proof (Hr e (list_elem_of_here _ _)) as Hne.
        revert He. unfold handle_event.
        destruct e as [|key|button pos|].
        - intros [= <- _]. reflexivity.
        - repeat (case_bool_decide || case_decide); try congruence;
            intros [= <- _]; congruence.
        - repeat (case_bool_decide || case_decide); try congruence;
            intros [= <- _]; congruence.
        - intros [= <- _]. reflexivity. }
      apply IHs; [|assumption|assumption].
      intros e' He'. apply Hr, list_elem_of_further, He'.
Qed.

(** X14: a frame of [run] keeps a reachable controller reachable (so every
    invariant of reachable states holds frame after frame), and the
    [running] flag it leaves is [False] exactly when one of the frame's events
    is QUIT, Escape or Q; the events after such an event are still handled
    and [update] still runs. *)
Theorem run_frame_reachable (events : list Event) (dt : float)
    (c c' : GC.t) (running : bool) :
  GC.reachable c ->
  frame_of_run events dt c = Ok (c', running) ->
  GC.reachable c'
  /\ running
     = forallb (fun e => match e with
                         | QUIT | KEYDOWN K_ESCAPE | KEYDOWN K_q => false
                         | _ => true
                         end) events.
Proof.
  intros Hreach. unfold run_frame.
  destruct (for_each events _ (c, true)) as [[c1 r1]|] eqn:Hloop; [|discriminate].
  cbn [mbind result_bind].
  destruct (GC.update dt c1) as [c2|] eqn:Hupd; [|discriminate].
  cbn [mbind result_bind]. intros [= <- <-].
  destruct (events_loop events c c1 true r1 Hloop) as (Hr & Hf & _).
  split; [|exact Hf].
  eapply GC.reachable_step; [apply Hr, Hreach | eapply GC.step_update, Hupd].
Qed.

(** X15: once the game is decided nothing but R restarts it.  On the WON or
    LOST screen a frame without an R key press returns the controller
    unchanged, whatever else is pressed or clicked. *)
Theorem run_frame_decided (events : list Event) (dt : float) (c : GC.t) :
  GC.current_screen c = WON \/ GC.current_screen c = LOST ->
  (forall e, e ∈ events -> e <> KEYDOWN K_r) ->
  exists running, frame_of_run events dt c = Ok (c, running).
Proof.
  intros Hscr Hr. unfold run_frame.
  assert (Hp : GC.current_screen c <> PLAYING) by (destruct Hscr; congruence).
  assert (Hw : GC.current_screen c <> WELCOME) by (destruct Hscr; congruence).
  assert (Hloop : exists r1,
             for_each events
               (fun event '(s, running) =>
                  '(s', continue) ← handle event s;
                  Ok (s', if continue : bool then running else false))
               (c, true) = Ok (c, r1)).
  { generalize true. induction events as [|e events IH]; intros r0.
    - eexists. reflexivity.
    - cbn [for_each].
      assert (He : exists b, handle e c = Ok (c, b)).
      { pose proof (Hr e (list_elem_of_here _ _)) as Hne.
        unfold handle_event. destruct e as [|key|button pos|].
        - eauto.
        - repeat (case_bool_decide || case_decide); try congruence; eauto.
        - repeat (case_bool_decide || case_decide); try congruence; eauto.
        - eauto. }
      destruct He as [b ->]. cbn [mbind result_bind].
      apply IH. intros e' He'. apply Hr, list_elem_of_further, He'. }
  destruct Hloop as [r1 ->]. cbn [mbind result_bind].
  assert (Hupd : GC.update dt c = Ok c).
  { unfold GC.update.
    destruct (decide (GC.current_screen c = EATING)); [destruct Hscr; congruence|].
    destruct (decide (GC.current_screen c <> PLAYING)); [reflexivity|contradiction]. }
  rewrite Hupd. eexists. reflexivity.
Qed.

(** X16: input is gated.  While the screen is not PLAYING, or while the
    boat is moving, the only change an event can make to the controller is a
    [reset_game] (by R, or by Space or a click on the welcome screen): clicks
    and crossing attempts are ignored. *)
Theorem handle_event_gated (e : Event) (c c' : GC.t) (b : bool) :
  GC.current_screen c <> PLAYING \/ Boat.is_moving (GC.boat c) = true ->
  handle e c = Ok (c', b) ->
  c' = c \/ c' = GC.reset_game c.
Proof.
  intros Hg He. apply handle_event_effect in He
    as [->|[->|[[Hp ->]|[Hp [r Hr]]]]]; auto.
  - destruct Hg as [Hg|Hg]; [contradiction|].
    left. apply try_cross_river_idle. auto.
  - destruct Hg as [Hg|Hg]; [contradiction|].
    rewrite click_moving in Hr by assumption. left. congruence.
Qed.

End EventFacts.

Lemma run_frame_reachable_witness :
  GC.reachable (GC.fresh [])
  /\ exists c',
       run_frame (fun _ _ => false) (fun _ r _ => bool_decide (r = CRef 0))
         [MOUSEBUTTONDOWN 1 (0, 0); KEYDOWN K_SPACE; QUIT] 0.015625 (GC.fresh [])
       = Ok (c', false)
       /\ GC.state c' = GameState.mk 3 2 RIGHT
       /\ GC.reachable c'.
Proof.
  split; [apply (GC.reachable_reset (GC.fresh []))|].
  eexists. split; [vm_compute; reflexivity|]. split; [reflexivity|].
  refine (proj1 (run_frame_reachable
                   (fun _ _ => false) (fun _ r _ => bool_decide (r = CRef 0))
                   [MOUSEBUTTONDOWN 1 (0, 0); KEYDOWN K_SPACE; QUIT] 0.015625
                   (GC.fresh []) _ false
                   (GC.reachable_reset (GC.fresh [])) _)).
  vm_compute. reflexivity.
Defined.

Lemma run_frame_decided_witness :
  GC.current_screen (GC.set_current_screen LOST (GC.boarded [MRef 0])) = LOST
  /\ exists running,
       run_frame (fun _ _ => true) (fun _ _ _ => true)
         [KEYDOWN K_SPACE; MOUSEBUTTONDOWN 1 (400, 300); KEYDOWN K_q] 0.015625
         (GC.set_current_screen LOST (GC.boarded [MRef 0]))
       = Ok (GC.set_current_screen LOST (GC.boarded [MRef 0]), running).
Proof.
  split; [reflexivity|].
  apply (run_frame_decided (fun _ _ => true) (fun _ _ _ => true)).
  - right. reflexivity.
  - intros e He.
    repeat (apply elem_of_cons in He as [->|He]; [discriminate|]).
    inversion He.
Defined.

Lemma handle_event_gated_witness :
  Boat.is_moving (GC.boat (GC.try_cross_river (GC.boarded [MRef 0]))) = true
  /\ handle_event (fun _ _ => true) (fun _ _ _ => true) (KEYDOWN K_SPACE)
       (GC.try_cross_river (GC.boarded [MRef 0]))
     = Ok (GC.try_cross_river (GC.boarded [MRef 0]), true)
  /\ (GC.try_cross_river (GC.boarded [MRef 0])
      = GC.try_cross_river (GC.boarded [MRef 0])
      \/ GC.try_cross_river (GC.boarded [MRef 0])
         = GC.reset_game (GC.try_cross_river (GC.boarded [MRef 0]))).
Proof.
  split; [reflexivity|]. split; [vm_compute; reflexivity|].
  apply (handle_event_gated (fun _ _ => true) (fun _ _ _ => true)
           (KEYDOWN K_SPACE) (GC.try_cross_river (GC.boarded [MRef 0])) _ true).
  - right. reflexivity.
  - vm_compute. reflexivity.
Defined.

(** ** Character.update_position *)

(** X17: characters standing on a bank never share a place.  In a reachable
    state, two characters that are not in the boat and whose
    [update_position] targets coincide are the same character. *)
Theorem update_position_distinct (c : GC.t) (r1 r2 : CharRef)
    (ch1 ch2 : Character.t) (t1 t2 : Z * Z) :
  GC.reachable c ->
  GC.deref r1 c = Some ch1 ->
  GC.deref r2 c = Some ch2 ->
  Character.in_boat ch1 = false ->
  Character.in_boat ch2 = false ->
  update_position ch1 t1 = update_position ch2 t2 ->
  r1 = r2.
Proof.
  intros Hreach H1 H2 Hb1 Hb2.
  pose proof (reachable_Inv c Hreach) as HI.
  pose proof (reachable_wf c Hreach) as Hwf.
  destruct (Hwf r1 ch1 H1) as (_ & _ & Hi1).
  destruct (Hwf r2 ch2 H2) as (_ & _ & Hi2).
  pose proof (GC.inv_type c HI r1 ch1 H1) as Ht1.
  pose proof (GC.inv_type c HI r2 ch2 H2) as Ht2.
  unfold update_position. rewrite Hb1, Hb2, Ht1, Ht2, Hi1, Hi2.
  unfold LEFT_BANK_X, RIGHT_BANK_X, CHARACTER_Y_TOP, CHARACTER_Y_BOTTOM.
  destruct r1 as [i|i], r2 as [j|j]; simpl;
    repeat case_bool_decide; intros [= Hx]; try discriminate;
    f_equal; lia.
Qed.

Lemma update_position_distinct_witness :
  GC.reachable (GC.boarded [CRef 0])
  /\ update_position (Character.mk "missionary" 1 "left" false false false) (0, 0)
     = (120, 180)
  /\ MRef 1 = MRef 1.
Proof.
  split; [apply reachable_boarded|]. split; [reflexivity|].
  apply (update_position_distinct (GC.boarded [CRef 0]) (MRef 1) (MRef 1)
           (Character.mk "missionary" 1 "left" false false false)
           (Character.mk "missionary" 1 "left" false false false)
           (0, 0) (5, 5) (reachable_boarded [CRef 0]));
    reflexivity.
Defined.

(** ** The loops of build_state_graph *)

Lemma for_each_ext {A S} (xs : list A) (f g : A -> S -> result S) (s : S) :
  (forall x s, f x s = g x s) -> for_each xs f s = for_each xs g s.
Proof.
  intros H. revert s. induction xs as [|x xs IH]; intros s; [reflexivity|].
  simpl. rewrite H. destruct (g x s); simpl; auto.
Qed.

(** A loop whose body appends to an accumulator. *)
Lemma for_each_append {A B} (F : A -> list B) (xs : list A) (acc : list B) :
  for_each xs (fun x acc => Ok (acc ++ F x)) acc = Ok (acc ++ (xs ≫= F)).
Proof.
  revert acc. induction xs as [|x xs IH]; intros acc; simpl.
  - rewrite app_nil_r. reflexivity.
  - rewrite IH, app_assoc. reflexivity.
Qed.

Lemma bind_filter_fmap {A B} (p : A -> bool) (h : A -> B) (xs : list A) :
  (xs ≫= fun x => if p x then [h x] else [])
  = h <$> filter (fun x => p x = true) xs.
Proof.
  induction xs as [|x xs IH]; [reflexivity|].
  cbn [mbind list_bind]. change (foldr _ _ _) with (xs ≫= fun x => if p x then [h x] else []) || idtac.
  rewrite filter_cons. destruct (p x) eqn:E.
  - rewrite decide_True by reflexivity. simpl. f_equal. exact IH.
  - rewrite decide_False by discriminate. simpl. exact IH.
Qed.

Section TotalCheck.

Variable v : GameState.t -> bool.

Lemma try_move_total (m_left c_left : Z) (boat : BoatPosition) (mv : Move)
    (transitions : list (Move * GameState.t)) :
  try_move (fun s => Ok (v s)) m_left c_left boat mv transitions
  = Ok (transitions
        ++ (if spec_available mv (GameState.mk m_left c_left boat)
               && v (spec_apply mv (GameState.mk m_left c_left boat))
            then [(mv, spec_apply mv (GameState.mk m_left c_left boat))]
            else [])).
Proof.
  destruct mv as [m_move c_move].
  unfold try_move, spec_available, spec_apply, GameState.missionaries_right,
    GameState.cannibals_right.
  destruct boat; simpl;
    repeat case_bool_decide; simpl; try lia;
    rewrite ?app_nil_r; try reflexivity;
    destruct (v _); simpl; rewrite ?app_nil_r; reflexivity.
Qed.

Lemma transitions_total (m_left c_left : Z) (boat : BoatPosition) :
  for_each possible_moves (try_move (fun s => Ok (v s)) m_left c_left boat) []
  = Ok (edges_with v (GameState.mk m_left c_left boat)).
Proof.
  rewrite (for_each_ext _ _
             (fun mv acc =>
                Ok (acc ++ (if spec_available mv (GameState.mk m_left c_left boat)
                               && v (spec_apply mv (GameState.mk m_left c_left boat))
                            then [(mv, spec_apply mv (GameState.mk m_left c_left boat))]
                            else []))))
    by (intros; apply try_move_total).
  rewrite (for_each_append
             (fun mv => if spec_available mv (GameState.mk m_left c_left boat)
                           && v (spec_apply mv (GameState.mk m_left c_left boat))
                        then [(mv, spec_apply mv (GameState.mk m_left c_left boat))]
                        else [])).
  rewrite app_nil_l.
  rewrite (bind_filter_fmap
             (fun mv => spec_available mv (GameState.mk m_left c_left boat)
                        && v (spec_apply mv (GameState.mk m_left c_left boat)))
             (fun mv => (mv, spec_apply mv (GameState.mk m_left c_left boat)))).
  unfold edges_with. f_equal. apply (f_equal (fmap _)).
  apply list_filter_iff. intros mv.
  rewrite andb_true_iff. reflexivity.
Qed.

Lemma visit_total (m_left c_left : Z) (boat : BoatPosition) (graph : StateGraph) :
  visit (fun s => Ok (v s)) m_left c_left boat graph
  = Ok (graph
        ++ (if v (GameState.mk m_left c_left boat)
            then [(GameState.mk m_left c_left boat,
                   edges_with v (GameState.mk m_left c_left boat))]
            else [])).
Proof.
  unfold visit. cbn [mbind result_bind].
  destruct (v (GameState.mk m_left c_left boat)); cbn [negb].
  - rewrite transitions_total. reflexivity.
  - rewrite app_nil_r. reflexivity.
Qed.

Lemma build_state_graph_with_value :
  build_state_graph_with (fun s => Ok (v s))
  = Ok ((fun s => (s, edges_with v s))
          <$> filter (fun s => v s = true) all_configurations).
Proof.
  unfold build_state_graph_with.
  set (F := fun s : GameState.t => if v s then [(s, edges_with v s)] else []).
  assert (H3 : forall m c g,
             for_each boat_positions (visit (fun s => Ok (v s)) m c) g
             = Ok (g ++ (boat_positions ≫= fun b => F (GameState.mk m c b)))).
  { intros m c g.
    rewrite (for_each_ext _ _ (fun b acc => Ok (acc ++ F (GameState.mk m c b))))
      by (intros; apply visit_total).
    apply (for_each_append (fun b => F (GameState.mk m c b))). }
  assert (H2 : forall m g,
             for_each range4
               (fun c => for_each boat_positions (visit (fun s => Ok (v s)) m c)) g
             = Ok (g ++ (range4 ≫= fun c =>
                          boat_positions ≫= fun b => F (GameState.mk m c b)))).
  { intros m g.
    rewrite (for_each_ext _ _
               (fun c acc => Ok (acc ++ (boat_positions ≫= fun b =>
                                          F (GameState.mk m c b)))))
      by (intros; apply H3).
    apply (for_each_append
             (fun c => boat_positions ≫= fun b => F (GameState.mk m c b))). }
  rewrite (for_each_ext _ _
             (fun m acc => Ok (acc ++ (range4 ≫= fun c =>
                                        boat_positions ≫= fun b =>
                                          F (GameState.mk m c b)))))
    by (intros; apply H2).
  rewrite (for_each_append
             (fun m => range4 ≫= fun c =>
                       boat_positions ≫= fun b => F (GameState.mk m c b))).
  rewrite app_nil_l. f_equal.
  rewrite <- (bind_filter_fmap v (fun s => (s, edges_with v s))).
  fold F. generalize F. intros G.
  cbn. rewrite ?app_nil_r, <- ?app_assoc. reflexivity.
Qed.

(** X18: the loop nest of [build_state_graph], run with a check that
    answers for every configuration instead of raising, returns the graph
    whose keys are the accepted configurations in the order of the three
    loops, each with exactly the moves, in the order of [possible_moves],
    that the bank holding the boat can supply and whose result the check
    accepts. *)
Theorem build_state_graph_with_total :
  build_state_graph_with (fun s => Ok (v s))
  = Ok ((fun s => (s, edges_with v s))
          <$> filter (fun s => v s = true) all_configurations).
Proof. exact build_state_graph_with_value. Qed.

End TotalCheck.

Lemma all_configurations_spec (s : GameState.t) :
  s ∈ all_configurations <-> GameState.spec_in_range s.
Proof.
  unfold GameState.spec_in_range. split.
  - intros H. apply list_elem_of_In in H. vm_compute in H.
    repeat (destruct H as [<-|H]; [vm_compute; intuition discriminate|]).
    contradiction.
  - destruct s as [m c b]. simpl. intros [Hm Hc].
    assert (m = 0 \/ m = 1 \/ m = 2 \/ m = 3) as Hm' by lia.
    assert (c = 0 \/ c = 1 \/ c = 2 \/ c = 3) as Hc' by lia.
    destruct Hm' as [->|[->|[->| ->]]], Hc' as [->|[->|[->| ->]]], b;
      apply (bool_decide_unpack _); vm_compute; exact I.
Qed.

(** X19: the graph those loops build is well-formed and closed up to the
    fields of its keys.  For a check [v] that answers for every
    configuration, every key is an accepted configuration with counts in
    0..3, and every edge [(mv, t)] recorded for a key [s] has [mv] among
    [possible_moves], [t] obtained from [s] by moving [mv] from the boat's
    bank with the boat side flipped, and [t] accepted by [v] and in range.
    The target [t] is an object of its own and not a key of the dictionary;
    the graph has an entry whose key [k] has the three fields of [t], and
    that entry lists the moves available and accepted at [k]. *)
Theorem build_state_graph_with_closed (v : GameState.t -> bool) (g : StateGraph)
    (s : GameState.t) (es : list (Move * GameState.t)) (mv : Move)
    (t : GameState.t) :
  build_state_graph_with (fun s => Ok (v s)) = Ok g ->
  (s, es) ∈ g ->
  (mv, t) ∈ es ->
  v s = true
  /\ GameState.spec_in_range s
  /\ mv ∈ possible_moves
  /\ t = spec_apply mv s
  /\ GameState.boat t <> GameState.boat s
  /\ v t = true
  /\ GameState.spec_in_range t
  /\ exists (k : GameState.t) (ek : list (Move * GameState.t)),
       (k, ek) ∈ g
       /\ GameState.missionaries_left k = GameState.missionaries_left t
       /\ GameState.cannibals_left k = GameState.cannibals_left t
       /\ GameState.boat k = GameState.boat t
       /\ ek = edges_with v k.
Proof.
  rewrite build_state_graph_with_value. intros [= <-] Hs Ht.
  apply list_elem_of_fmap in Hs as (s' & [= -> ->] & Hs').
  apply list_elem_of_filter in Hs' as [Hv Hin].
  apply all_configurations_spec in Hin.
  apply list_elem_of_fmap in Ht as (mv' & [= -> ->] & Hmv).
  apply list_elem_of_filter in Hmv as [[Hav Hvt] Hpm].
  assert (Hmoves : mv'.1 >= 0 /\ mv'.2 >= 0).
  { apply list_elem_of_In in Hpm. vm_compute in Hpm.
    repeat (destruct Hpm as [<-|Hpm]; [vm_compute; intuition discriminate|]).
    contradiction. }
  assert (Hrange : GameState.spec_in_range (spec_apply mv' s')).
  { revert Hav Hin Hmoves. clear. destruct s' as [m c b], mv' as [a k].
    unfold spec_available, spec_apply, GameState.spec_in_range,
      GameState.missionaries_right, GameState.cannibals_right.
    destruct b; simpl; repeat case_bool_decide; simpl; try discriminate; lia. }
  split; [exact Hv|]. split; [exact Hin|]. split; [exact Hpm|].
  split; [reflexivity|]. split.
  { unfold spec_apply. destruct (GameState.boat s'); simpl; discriminate. }
  split; [exact Hvt|]. split; [exact Hrange|].
  exists (spec_apply mv' s'), (edges_with v (spec_apply mv' s')).
  split; [|repeat split].
  apply list_elem_of_fmap. exists (spec_apply mv' s'). split; [reflexivity|].
  apply list_elem_of_filter. split; [exact Hvt|].
  apply all_configurations_spec, Hrange.
Qed.

Lemma build_state_graph_with_closed_witness :
  build_state_graph_with (fun s => Ok (GameState.spec_safe_b s))
  = Ok ((fun s => (s, edges_with GameState.spec_safe_b s))
          <$> filter (fun s => GameState.spec_safe_b s = true) all_configurations)
  /\ exists (k : GameState.t) (ek : list (Move * GameState.t)),
       (k, ek)
       ∈ (fun s => (s, edges_with GameState.spec_safe_b s))
           <$> filter (fun s => GameState.spec_safe_b s = true) all_configurations
       /\ GameState.missionaries_left k = 3
       /\ GameState.cannibals_left k = 2
       /\ GameState.boat k = RIGHT
       /\ ek = edges_with GameState.spec_safe_b k.
Proof.
  assert (E : build_state_graph_with (fun s => Ok (GameState.spec_safe_b s))
              = Ok ((fun s => (s, edges_with GameState.spec_safe_b s))
                      <$> filter (fun s => GameState.spec_safe_b s = true)
                                 all_configurations))
    by apply build_state_graph_with_value.
  split; [exact E|].
  refine (proj2 (proj2 (proj2 (proj2 (proj2 (proj2 (proj2
            (build_state_graph_with_closed GameState.spec_safe_b _
               (GameState.mk 3 3 LEFT)
               (edges_with GameState.spec_safe_b (GameState.mk 3 3 LEFT))
               (0, 1) (GameState.mk 3 2 RIGHT) E _ _)))))))).
  - apply (bool_decide_unpack _). vm_compute. exact I.
  - apply (bool_decide_unpack _). vm_compute. exact I.
Defined.

(** ** The boat and the configuration *)

Lemma click_boat (c c' : GC.t) r :
  GC.handle_character_click r c = Ok c' ->
  Boat.x (GC.boat c') = Boat.x (GC.boat c)
  /\ Boat.target_x (GC.boat c') = Boat.target_x (GC.boat c).
Proof.
  unfold GC.handle_character_click.
  destruct (Boat.is_moving (GC.boat c)) eqn:Hm; [intros [= <-]; auto|].
  destruct (GC.deref r c) as [ch|]; [|intros [= <-]; auto].
  destruct (Character.in_boat ch).
  - match goal with
    | |- context [GC.modify ?f r c] =>
        destruct (modify_frame f r c) as (_ & _ & _ & _ & _ & Hb & _);
        generalize dependent (GC.modify f r c)
    end.
    intros c1 Hb.
    destruct (remove r (Boat.passengers (GC.boat c1))) as [p|]; [|discriminate].
    cbn [mbind result_bind].
    destruct (remove r _) as [q|]; [|discriminate].
    cbn [mbind result_bind]. intros [= <-]. simpl. rewrite Hb. auto.
  - destruct (_ && _).
    + destruct (modify_frame (Character.set_boarded true) r c)
        as (_ & _ & _ & _ & _ & Hb & _).
      intros [= <-]. simpl. rewrite Hb. auto.
    + intros [= <-]. auto.
Qed.

Lemma finish_crossing_boat (c c' : GC.t) :
  GC.finish_crossing c = Ok c' ->
  Boat.x (GC.boat c') = Boat.x (GC.boat c)
  /\ Boat.target_x (GC.boat c') = Boat.target_x (GC.boat c)
  /\ Boat.is_moving (GC.boat c') = Boat.is_moving (GC.boat c).
Proof.
  assert (H : Boat.x (GC.boat (GC.disembark c)) = Boat.x (GC.boat c)
              /\ Boat.target_x (GC.boat (GC.disembark c)) = Boat.target_x (GC.boat c)
              /\ Boat.is_moving (GC.boat (GC.disembark c))
                 = Boat.is_moving (GC.boat c)).
  { unfold GC.disembark.
    destruct (foldl_modify_frame (Character.set_boarded false)
                (Boat.passengers (GC.boat c)) c)
      as (_ & _ & _ & _ & _ & Hb & _).
    simpl. rewrite Hb. auto. }
  unfold GC.finish_crossing. destruct (GameState.is_goal _).
  - intros [= <-]. exact H.
  - destruct (GameState.is_valid _) as [[|]|]; simpl; try discriminate;
      intros [= <-]; exact H.
Qed.

Lemma boat_agrees_step (c c' : GC.t) :
  GC.step c c' ->
  (Boat.target_x (GC.boat c)
   = (if decide (GameState.boat (GC.state c) = LEFT)
      then BOAT_LEFT_X else BOAT_RIGHT_X)
   /\ (Boat.is_moving (GC.boat c) = false ->
       Boat.x (GC.boat c) = Boat.target_x (GC.boat c))) ->
  Boat.target_x (GC.boat c')
  = (if decide (GameState.boat (GC.state c') = LEFT)
     then BOAT_LEFT_X else BOAT_RIGHT_X)
  /\ (Boat.is_moving (GC.boat c') = false ->
      Boat.x (GC.boat c') = Boat.target_x (GC.boat c')).
Proof.
  intros Hstep [Ht Hx]. destruct Hstep as [c|c r c' Hclick|c|c dt c' Hupd].
  - split; reflexivity.
  - destruct (click_frame c c' r Hclick) as (-> & _ & _ & _ & -> & _).
    destruct (click_boat c c' r Hclick) as (-> & ->). auto.
  - destruct (Boat.is_moving (GC.boat c)) eqn:Hm.
    { rewrite try_cross_river_idle by auto. rewrite Hm. auto. }
    destruct (decide (Boat.passengers (GC.boat c) = [])) as [Hp|Hp].
    { rewrite try_cross_river_idle by auto. rewrite Hm. auto. }
    destruct (try_cross_river_fields c Hm Hp) as (Hst & _ & _ & Hmv & _).
    rewrite Hmv. split; [|discriminate].
    rewrite (try_cross_river_unfold c Hm Hp). cbv zeta.
    match goal with
    | |- context [foldl (fun s char => GC.modify ?f char s) ?c0 ?p] =>
        destruct (foldl_modify_frame f p c0) as (_ & Hs & _ & _ & _ & Hb & _)
    end.
    rewrite Hb, Hs. reflexivity.
  - revert Hupd. unfold GC.update.
    destruct (decide (GC.current_screen c = EATING)).
    { destruct (_ <=? _)%float; intros [= <-]; simpl; auto. }
    destruct (decide (GC.current_screen c <> PLAYING)); [intros [= <-]; auto|].
    destruct (boat_update_step (GC.boat c)) as (Hut & _ & _ & _ & Hux).
    destruct (_ && _).
    + intros Hfin.
      destruct (finish_crossing_boat _ _ Hfin) as (-> & -> & ->).
      destruct (finish_crossing_cases
                  (GC.set_boat (Boat.update (GC.boat c)) c)) as (_ & _ & Hok).
      destruct (Hok c' Hfin) as (-> & _).
      cbn [GC.boat GC.set_boat GC.state]. rewrite Hut. auto.
    + intros [= <-]. cbn [GC.boat GC.set_boat GC.state]. rewrite Hut. auto.
Qed.

(** X20: the boat agrees with the configuration.  In every reachable state
    the boat's target is the mooring of the bank the configuration names
    (320 for LEFT, 680 for RIGHT), and a boat that is not moving lies exactly
    on it. *)
Theorem reachable_boat_position (c : GC.t) :
  GC.reachable c ->
  Boat.target_x (GC.boat c)
  = (if decide (GameState.boat (GC.state c) = LEFT)
     then BOAT_LEFT_X else BOAT_RIGHT_X)
  /\ (Boat.is_moving (GC.boat c) = false ->
      Boat.x (GC.boat c) = Boat.target_x (GC.boat c)).
Proof.
  induction 1 as [c|c c' _ IH Hstep]; [split; reflexivity|].
  exact (boat_agrees_step c c' Hstep IH).
Qed.

Lemma reachable_boat_position_witness :
  GC.reachable (GC.try_cross_river (GC.boarded [CRef 0; CRef 1]))
  /\ Boat.target_x (GC.boat (GC.try_cross_river (GC.boarded [CRef 0; CRef 1])))
     = 680.
Proof.
  assert (H : GC.reachable (GC.try_cross_river (GC.boarded [CRef 0; CRef 1]))).
  { eapply GC.reachable_step; [apply reachable_boarded | apply GC.step_cross]. }
  split; [exact H|].
  exact (proj1 (reachable_boat_position _ H)).
Defined.

(** ** Motion of the boat between its moorings *)

Lemma on_river_update (b : Boat.t) : on_river b -> on_river (Boat.update b).
Proof.
  unfold on_river, Boat.update, BOAT_LEFT_X, BOAT_RIGHT_X, BOAT_SPEED.
  intros H. repeat case_bool_decide; simpl; lia.
Qed.

Lemma on_river_updates (n : nat) (b : Boat.t) :
  on_river b -> on_river (Nat.iter n Boat.update b).
Proof.
  intros H. induction n as [|n IH]; [exact H|].
  simpl. apply on_river_update, IH.
Qed.

Lemma on_river_step (c c' : GC.t) :
  GC.step c c' -> on_river (GC.boat c) -> on_river (GC.boat c').
Proof.
  intros Hstep H. destruct Hstep as [c|c r c' Hclick|c|c dt c' Hupd].
  - unfold on_river. repeat split; vm_compute; intros ?; discriminate.
  - unfold on_river.
    destruct (click_boat c c' r Hclick) as (-> & ->). exact H.
  - destruct (Boat.is_moving (GC.boat c)) eqn:Hm.
    { rewrite try_cross_river_idle by auto. exact H. }
    destruct (decide (Boat.passengers (GC.boat c) = [])) as [Hp|Hp].
    { rewrite try_cross_river_idle by auto. exact H. }
    rewrite (try_cross_river_unfold c Hm Hp). cbv zeta.
    match goal with
    | |- context [foldl (fun s char => GC.modify ?f char s) ?c0 ?p] =>
        destruct (foldl_modify_frame f p c0) as (_ & _ & _ & _ & _ & Hb & _)
    end.
    rewrite Hb. revert H.
    unfold on_river, Boat.move_to, BOAT_LEFT_X, BOAT_RIGHT_X. simpl.
    case_decide; lia.
  - revert Hupd. unfold GC.update.
    destruct (decide (GC.current_screen c = EATING)).
    { destruct (_ <=? _)%float; intros [= <-]; simpl; exact H. }
    destruct (decide (GC.current_screen c <> PLAYING)); [intros [= <-]; exact H|].
    pose proof (on_river_update _ H) as Hu.
    destruct (_ && _).
    + intros Hfin. unfold on_river.
      destruct (finish_crossing_boat _ _ Hfin) as (-> & -> & _). exact Hu.
    + intros [= <-]. exact Hu.
Qed.

Lemma reachable_on_river (c : GC.t) : GC.reachable c -> on_river (GC.boat c).
Proof.
  induction 1 as [c|c c' _ IH Hstep].
  - unfold on_river. repeat split; vm_compute; intros ?; discriminate.
  - exact (on_river_step c c' Hstep IH).
Qed.

(** X3: one [Boat.update] of a boat between its moorings never overshoots
    and never moves away: the boat stays between the moorings, the distance
    to the target shrinks by exactly [BOAT_SPEED] while it is more than 2,
    and otherwise the boat snaps onto the target and stops.  The target and
    the passengers are not touched, and the boat is flagged moving exactly
    when it has not arrived. *)
Theorem boat_update_approaches (b : Boat.t) :
  on_river b ->
  on_river (Boat.update b)
  /\ Boat.target_x (Boat.update b) = Boat.target_x b
  /\ Boat.passengers (Boat.update b) = Boat.passengers b
  /\ Z.abs (Boat.target_x b - Boat.x (Boat.update b))
     = (if bool_decide (Z.abs (Boat.target_x b - Boat.x b) > 2)
        then Z.abs (Boat.target_x b - Boat.x b) - BOAT_SPEED
        else 0)
  /\ Boat.is_moving (Boat.update b)
     = bool_decide (Z.abs (Boat.target_x b - Boat.x b) > 2)
  /\ (Boat.is_moving (Boat.update b) = false ->
      Boat.x (Boat.update b) = Boat.target_x b).
Proof.
  intros H. split; [exact (on_river_update b H) | exact (boat_update_step b)].
Qed.

Lemma boat_update_approaches_witness :
  on_river (Boat.mk 677 680 true [MRef 0])
  /\ on_river (Boat.update (Boat.mk 677 680 true [MRef 0]))
  /\ Z.abs (680 - Boat.x (Boat.update (Boat.mk 677 680 true [MRef 0]))) = 0.
Proof.
  assert (H : on_river (Boat.mk 677 680 true [MRef 0])).
  { unfold on_river, BOAT_LEFT_X, BOAT_RIGHT_X. simpl. lia. }
  split; [exact H|]. split.
  - exact (proj1 (boat_update_approaches _ H)).
  - exact (proj1 (proj2 (proj2 (proj2 (boat_update_approaches _ H))))).
Defined.

(** X4: a boat between its moorings whose target is [d] pixels away keeps
    moving towards it for [d / 3] updates, three pixels at a time and never
    leaving the stretch between the moorings, and is found at rest on the
    target after every later update; with [d <= 2] the first update already
    stops it. *)
Theorem boat_updates_arrive (b : Boat.t) :
  on_river b ->
  (forall j,
     (j <= Z.to_nat (Z.abs (Boat.target_x b - Boat.x b) / 3))%nat ->
     on_river (Nat.iter j Boat.update b)
     /\ Boat.x (Nat.iter j Boat.update b)
        = Boat.x b + Z.sgn (Boat.target_x b - Boat.x b) * (3 * Z.of_nat j)
     /\ Boat.target_x (Nat.iter j Boat.update b) = Boat.target_x b
     /\ Boat.passengers (Nat.iter j Boat.update b) = Boat.passengers b
     /\ ((1 <= j)%nat -> Boat.is_moving (Nat.iter j Boat.update b) = true))
  /\ (forall m,
        (Z.to_nat (Z.abs (Boat.target_x b - Boat.x b) / 3) < m)%nat ->
        Nat.iter m Boat.update b
        = Boat.mk (Boat.target_x b) (Boat.target_x b) false (Boat.passengers b)).
Proof.
  intros H.
  destruct (boat_updates_arrive_aux _ b eq_refl) as [Hj Hm].
  split; [|exact Hm].
  intros j Hle. split; [apply on_river_updates, H | exact (Hj j Hle)].
Qed.

Lemma boat_updates_arrive_witness :
  on_river (Boat.mk 320 680 true [CRef 0; MRef 2])
  /\ Nat.iter 121 Boat.update (Boat.mk 320 680 true [CRef 0; MRef 2])
     = Boat.mk 680 680 false [CRef 0; MRef 2].
Proof.
  assert (H : on_river (Boat.mk 320 680 true [CRef 0; MRef 2])).
  { unfold on_river, BOAT_LEFT_X, BOAT_RIGHT_X. simpl. lia. }
  split; [exact H|].
  apply (proj2 (boat_updates_arrive _ H) 121%nat). vm_compute. lia.
Defined.

(** X5: the frames of a crossing.  In a reachable state with the screen
    PLAYING and the boat moving, the boat is between its moorings, [d]
    pixels from its target; the first [d / 3] calls of [update] only move
    the boat (configuration, move counter, screen and characters stay as
    they are), and the next call is the one that runs [finish_crossing],
    with the boat at rest on its target. *)
Theorem update_arrival_frame (c : GC.t) (dt : float) :
  GC.reachable c ->
  GC.current_screen c = PLAYING ->
  Boat.is_moving (GC.boat c) = true ->
  on_river (GC.boat c)
  /\ GC.run_updates
       (Z.to_nat (Z.abs (Boat.target_x (GC.boat c) - Boat.x (GC.boat c)) / 3)) dt c
     = Ok (GC.set_boat
             (Nat.iter
                (Z.to_nat (Z.abs (Boat.target_x (GC.boat c) - Boat.x (GC.boat c)) / 3))
                Boat.update (GC.boat c))
             c)
  /\ GC.run_updates
       (S (Z.to_nat (Z.abs (Boat.target_x (GC.boat c) - Boat.x (GC.boat c)) / 3)))
       dt c
     = GC.finish_crossing
         (GC.set_boat
            (Boat.mk (Boat.target_x (GC.boat c)) (Boat.target_x (GC.boat c))
                     false (Boat.passengers (GC.boat c)))
            c).
Proof.
  intros Hr Hs Hm.
  split; [exact (reachable_on_river c Hr) | exact (run_updates_arrival c dt Hs Hm)].
Qed.

Lemma update_arrival_frame_witness :
  GC.reachable (GC.try_cross_river (GC.boarded [MRef 0; MRef 1]))
  /\ GC.current_screen (GC.try_cross_river (GC.boarded [MRef 0; MRef 1])) = PLAYING
  /\ Boat.is_moving (GC.boat (GC.try_cross_river (GC.boarded [MRef 0; MRef 1])))
     = true
  /\ GC.run_updates 121 0.015625
       (GC.try_cross_river (GC.boarded [MRef 0; MRef 1]))
     = GC.finish_crossing
         (GC.set_boat (Boat.mk 680 680 false [MRef 0; MRef 1])
            (GC.try_cross_river (GC.boarded [MRef 0; MRef 1]))).
Proof.
  assert (H : GC.reachable (GC.try_cross_river (GC.boarded [MRef 0; MRef 1]))).
  { eapply GC.reachable_step; [apply reachable_boarded | apply GC.step_cross]. }
  split; [exact H|]. split; [reflexivity|]. split; [reflexivity|].
  exact (proj2 (proj2 (update_arrival_frame
                         (GC.try_cross_river (GC.boarded [MRef 0; MRef 1]))
                         0.015625 H eq_refl eq_refl))).
Defined.
